(** * GuildMember: a shallow embedding of [src/structures/GuildMember.js]

    The member object, the arrays it shares with its callers, the guild's
    role registry and the engine's reading of dates are modelled as an
    explicit world that every method threads through a small
    state-and-failure monad.  JavaScript arrays are
    mutable objects, so they live in a heap and are named by a location;
    maps ([Collection]) are only read by the member and are kept as values. *)

From Stdlib Require Import ZArith Ascii String.
From stdpp Require Import base option list strings.

Local Open Scope string_scope.
Local Open Scope list_scope.
Local Open Scope Z_scope.

(** ** Roles, users, channels *)

(** [Role.js], [User.js] and the channel classes are not among the sources.
    The member only reads [role.id] and [user.id]; [name] stands for the rest
    of the object, so that two distinct roles may carry the same [id]. *)
Module Role.
Record t : Type := mk { id : string; name : string }.
End Role.

Module User.
Record t : Type := mk { id : string; username : string }.
End User.

Module Channel.
Record t : Type := mk { id : string; name : string }.
End Channel.

(** ** Collection *)

(** Modelled from the spec: [util/Collection.js] is not among the sources.
    The spec describes it as an ordered mapping from identifier to object in
    insertion order; the class extends the built-in [Map], and the member
    uses only [get], [set] and [values] (the registry's owner also deletes).
    Keys are compared as strings; [set] on a present key replaces the value
    in place and keeps its position, [set] on a new key appends. *)
Module Collection.
Definition t (V : Type) : Type := list (string * V).

Definition empty {V : Type} : t V := [].

Fixpoint get {V : Type} (c : t V) (k : string) : option V :=
  match c with
  | [] => None
  | (k', v) :: c' => if String.eqb k' k then Some v else get c' k
  end.

Fixpoint set {V : Type} (c : t V) (k : string) (v : V) : t V :=
  match c with
  | [] => [(k, v)]
  | (k', v') :: c' =>
      if String.eqb k' k then (k', v) :: c' else (k', v') :: set c' k v
  end.

Fixpoint delete {V : Type} (c : t V) (k : string) : t V :=
  match c with
  | [] => []
  | (k', v') :: c' =>
      if String.eqb k' k then delete c' k else (k', v') :: delete c' k
  end.

Definition keys {V : Type} (c : t V) : list string := map fst c.
Definition values {V : Type} (c : t V) : list V := map snd c.
End Collection.

(** A registry is keyed by identifier when every entry sits under the [id]
    of the role it holds, which is how the guild fills [guild.roles]. *)
Definition keyed_by_id (reg : Collection.t Role.t) : Prop :=
  ∀ k r, Collection.get reg k = Some r → Role.id r = k.

(** ** Time values *)

(** The result of [Date.prototype.getTime]: a number of milliseconds since
    the epoch, or NaN for an invalid date. *)
Inductive TimeValue : Type :=
| NaN
| Ms (t : Z).

Module DateParse.
Definition digit (c : ascii) : option Z :=
  let n := Z.of_nat (nat_of_ascii c) in
  if (48 <=? n) && (n <=? 57) then Some (n - 48) else None.

(** Reads exactly [n] decimal digits. *)
Fixpoint digits (n : nat) (acc : Z) (l : list ascii) : option (Z * list ascii) :=
  match n with
  | O => Some (acc, l)
  | S n' =>
      match l with
      | [] => None
      | c :: l' => d ← digit c; digits n' (10 * acc + d) l'
      end
  end.

Definition expect (c : ascii) (l : list ascii) : option (list ascii) :=
  match l with
  | c' :: l' => if Ascii.eqb c c' then Some l' else None
  | [] => None
  end.

(** [YYYY], or an expanded year: a sign and six digits, [-000000] excluded. *)
Definition year (l : list ascii) : option (Z * list ascii) :=
  match l with
  | "+"%char :: l' => digits 6 0 l'
  | "-"%char :: l' =>
      '(y, r) ← digits 6 0 l';
      if y =? 0 then None else Some (- y, r)
  | _ => digits 4 0 l
  end.

(** An optional field: the separator [sep] and two digits, or the default. *)
Definition field (sep : ascii) (default : Z) (l : list ascii)
  : option (Z * list ascii) :=
  match l with
  | c :: l' => if Ascii.eqb sep c then digits 2 0 l' else Some (default, l)
  | [] => Some (default, l)
  end.

(** The date-only forms [YYYY], [YYYY-MM] and [YYYY-MM-DD]. *)
Definition date (l : list ascii) : option (Z * Z * Z * list ascii) :=
  '(y, l) ← year l;
  match l with
  | "-"%char :: _ =>
      '(mo, l) ← field "-" 1 l;
      '(d, l) ← field "-" 1 l;
      Some (y, mo, d, l)
  | _ => Some (y, 1, 1, l)
  end.

(** The milliseconds: [.sss], three digits, or none. *)
Definition millis (l : list ascii) : option (Z * list ascii) :=
  match l with
  | "."%char :: l' => digits 3 0 l'
  | _ => Some (0, l)
  end.

(** The time forms [HH:mm], [HH:mm:ss] and [HH:mm:ss.sss], in milliseconds
    since the start of the day; [24:00:00.000] is the end of the day. *)
Definition time (l : list ascii) : option (Z * list ascii) :=
  '(h, l) ← digits 2 0 l;
  l ← expect ":" l;
  '(mi, l) ← digits 2 0 l;
  '(s, ms, l) ← match l with
                | ":"%char :: l' =>
                    '(s, l) ← digits 2 0 l';
                    '(ms, l) ← millis l;
                    Some (s, ms, l)
                | _ => Some (0, 0, l)
                end;
  if ((h <=? 23) && (mi <=? 59) && (s <=? 59))
     || ((h =? 24) && (mi =? 0) && (s =? 0) && (ms =? 0))
  then Some (((h * 60 + mi) * 60 + s) * 1000 + ms, l)
  else None.

(** The offset from UTC in minutes: [Z], or a sign and [HH:mm]. *)
Definition offset (l : list ascii) : option Z :=
  match l with
  | ["Z"%char] => Some 0
  | s :: l' =>
      sign ← (if Ascii.eqb s "+" then Some 1
              else if Ascii.eqb s "-" then Some (-1) else None);
      '(h, l1) ← digits 2 0 l';
      l2 ← expect ":" l1;
      '(m, l3) ← digits 2 0 l2;
      match l3 with
      | [] => if (h <=? 23) && (m <=? 59) then Some (sign * (60 * h + m)) else None
      | _ => None
      end
  | [] => None
  end.

Definition is_leap (y : Z) : bool :=
  ((y mod 4 =? 0) && negb (y mod 100 =? 0)) || (y mod 400 =? 0).

Definition days_in_month (y m : Z) : Z :=
  if m =? 2 then (if is_leap y then 29 else 28)
  else if (m =? 4) || (m =? 6) || (m =? 9) || (m =? 11) then 30
  else 31.

(** Days from 1970-01-01 to the given date of the proleptic Gregorian
    calendar. *)
Definition days_from_civil (y m d : Z) : Z :=
  let y' := if m <=? 2 then y - 1 else y in
  let era := y' / 400 in
  let yoe := y' - era * 400 in
  let mp := (m + 9) mod 12 in
  let doy := (153 * mp + 2) / 5 + d - 1 in
  let doe := yoe * 365 + yoe / 4 - yoe / 100 + doy in
  era * 146097 + doe - 719468.

(** [TimeClip]: an instant more than 8.64e15 ms from the epoch is no time
    value. *)
Definition time_clip (t : Z) : TimeValue :=
  if Z.abs t <=? 8640000000000000 then Ms t else NaN.

(** The strings whose time value ECMAScript fixes for every engine: the
    date-only forms, which are taken as UTC, and the date-time forms that
    carry an offset, all with their elements within bounds.  [None] is
    every other string: a date-time form without offset, which is local time,
    and a string that is no instance of the format. *)
Definition portable (l : list ascii) : option TimeValue :=
  '(y, mo, d, l) ← date l;
  if (1 <=? mo) && (mo <=? 12) && (1 <=? d) && (d <=? days_in_month y mo)
  then
    match l with
    | [] => Some (time_clip (days_from_civil y mo d * 86400000))
    | "T"%char :: l' =>
        '(t, l) ← time l';
        off ← offset l;
        Some (time_clip (days_from_civil y mo d * 86400000 + t - off * 60000))
    | _ => None
    end
  else None.

(** [new Date(s).getTime()] for a string [s].  [Date.parse] reads the
    date-time string format first; what it makes of any other string, and
    the local time zone, are the engine's, here the parameter [engine]. *)
Definition getTime (engine : string → TimeValue) (s : string) : TimeValue :=
  match portable (list_ascii_of_string s) with
  | Some t => t
  | None => engine s
  end.
End DateParse.

(** ** Arrays and the heap *)

(** An element of a [Role[] | string[]] array: a role object or a bare
    identifier. *)
Inductive Item : Type :=
| IRole (r : Role.t)
| IStr (s : string).

Definition is_id (x : Item) : bool :=
  match x with IStr _ => true | IRole _ => false end.

(** [role instanceof Role ? role.id : role] *)
Definition resolve_id (x : Item) : string :=
  match x with IRole r => Role.id r | IStr s => s end.

(** The pure content of the array methods the member calls. *)
Module JSArray.
(** [a.indexOf(key)] for a string [key], searching from position [i]:
    strict equality, so a role object never equals the string. *)
Fixpoint indexOf_from (a : list Item) (key : string) (i : Z) : Z :=
  match a with
  | [] => -1
  | IStr s :: a' => if String.eqb s key then i else indexOf_from a' key (i + 1)
  | IRole _ :: a' => indexOf_from a' key (i + 1)
  end.

Definition indexOf (a : list Item) (key : string) : Z := indexOf_from a key 0.

(** The array left by [a.splice(start, deleteCount)]. *)
Definition splice (a : list Item) (start deleteCount : Z) : list Item :=
  let len := Z.of_nat (length a) in
  let s := if start <? 0 then Z.max (len + start) 0 else Z.min start len in
  let c := Z.min (Z.max deleteCount 0) (len - s) in
  take (Z.to_nat s) a ++ drop (Z.to_nat (s + c)) a.
End JSArray.

Definition loc : Type := nat.

(** What is passed where the source accepts
    [Collection<string, Role> | Role[] | string[]]. *)
Inductive Roles : Type :=
| RCollection (c : Collection.t Role.t)
| RArray (l : loc).

(** ** Guild, member, snapshot *)

Record Guild : Type := mkGuild {
  guild_id : string;
  guild_roles : Collection.t Role.t;
  guild_channels : Collection.t Channel.t
}.

(** The raw member data that [setup] reads.  [roles] is an array object and
    is shared with the member by reference. *)
Module Data.
Record t : Type := mk {
  deaf : bool;
  mute : bool;
  self_mute : bool;
  self_deaf : bool;
  session_id : option string;
  channel_id : option string;
  nick : option string;
  user : User.t;
  roles : loc;
  joined_at : string
}.
End Data.

(** The own fields of a [GuildMember] object; [None] is [undefined] (for
    [user], the empty object that the constructor assigns). *)
Record Member : Type := mkMember {
  user : option User.t;
  _roles : loc;
  serverDeaf : option bool;
  serverMute : option bool;
  selfMute : option bool;
  selfDeaf : option bool;
  voiceSessionID : option string;
  voiceChannelID : option string;
  speaking : option bool;
  nickname : option string;
  _joinDate : option TimeValue
}.

(** ** Requests to the REST methods *)

(** The object literal handed to [edit]: each of the setters fills one
    field.  A channel is given by its identifier. *)
Record EditData : Type := mkEdit {
  e_mute : option bool;
  e_deaf : option bool;
  e_channel : option string;
  e_roles : option Roles;
  e_nick : option string
}.

Inductive RestCall : Type :=
| UpdateGuildMember (data : EditData)
| KickGuildMember
| BanGuildMember (deleteDays : Z)
| DeleteChannel.

(** ** The world and its monad *)

(** The arrays, the guild, the member, the requests sent so far, and what
    the engine's [Date] makes of a string that the date-time string format
    does not settle. *)
Record World : Type := mkWorld {
  heap : list (list Item);
  guild : Guild;
  this : Member;
  rest : list RestCall;
  engine : string → TimeValue
}.

Definition M (A : Type) : Type := World → option (A * World).

Definition ret {A : Type} (a : A) : M A := λ w, Some (a, w).

Definition bind {A B : Type} (m : M A) (f : A → M B) : M B :=
  λ w, match m w with
       | Some (a, w') => f a w'
       | None => None
       end.

Declare Scope js_scope.
Delimit Scope js_scope with js.
Notation "x <- m ;; k" := (bind m (λ x, k))
  (at level 100, m at next level, right associativity) : js_scope.
Notation "m ;; k" := (bind m (λ _, k))
  (at level 100, right associativity) : js_scope.
Local Open Scope js_scope.

(** [new Date(s).getTime()] *)
Definition Date_getTime (s : string) : M TimeValue :=
  λ w, Some (DateParse.getTime (engine w) s, w).

Definition get_this : M Member := λ w, Some (this w, w).
Definition get_guild : M Guild := λ w, Some (guild w, w).

Definition put_this (m : Member) : M unit :=
  λ w, Some (tt, mkWorld (heap w) (guild w) m (rest w) (engine w)).

Definition put_heap (h : list (list Item)) (w : World) : World :=
  mkWorld h (guild w) (this w) (rest w) (engine w).

(** Reading through a location that names no array is an error of the
    model; a JavaScript reference always names an object. *)
Definition read (l : loc) : M (list Item) :=
  λ w, match heap w !! l with
       | Some a => Some (a, w)
       | None => None
       end.

Definition write (l : loc) (a : list Item) : M unit :=
  λ w, match heap w !! l with
       | Some _ => Some (tt, put_heap (<[l := a]> (heap w)) w)
       | None => None
       end.

(** A new array object. *)
Definition alloc (a : list Item) : M loc :=
  λ w, Some (length (heap w), put_heap (heap w ++ [a]) w).

(** [for (const x of xs) body] over a sequence that the body leaves alone. *)
Fixpoint for_of {A : Type} (xs : list A) (body : A → M unit) : M unit :=
  match xs with
  | [] => ret tt
  | x :: xs' => body x;; for_of xs' body
  end.

(** Array methods on array objects. *)
Definition slice (l : loc) : M loc := a <- read l;; alloc a.

(** [a.concat(b)] for an array [b]. *)
Definition concat (l l' : loc) : M loc :=
  a <- read l;; b <- read l';; alloc (a ++ b).

Definition push (l : loc) (x : Item) : M unit :=
  a <- read l;; write l (a ++ [x]).

Definition indexOf (l : loc) (key : string) : M Z :=
  a <- read l;; ret (JSArray.indexOf a key).

Definition splice (l : loc) (start deleteCount : Z) : M unit :=
  a <- read l;; write l (JSArray.splice a start deleteCount).

(** ** REST methods *)

(** Modelled from the spec: [client.rest.methods] (the command executor) is
    not among the sources.  The spec gives it as an asynchronous submitter,
    [submit(memberRef, mutationRequest)], whose result reaches the member only
    through a later refresh; the call itself is modelled as recording the
    request, in order, with its arguments as the member passed them. *)
Module RESTMethods.
Definition submit (c : RestCall) : M unit :=
  λ w, Some (tt, mkWorld (heap w) (guild w) (this w) (rest w ++ [c]) (engine w)).

Definition updateGuildMember (data : EditData) : M unit :=
  submit (UpdateGuildMember data).
Definition kickGuildMember : M unit := submit KickGuildMember.
Definition banGuildMember (deleteDays : Z) : M unit :=
  submit (BanGuildMember deleteDays).
Definition deleteChannel : M unit := submit DeleteChannel.
End RESTMethods.

(** ** Assignments to the fields of [this] *)

Definition set_user (v : option User.t) : M unit :=
  m <- get_this;;
  put_this (mkMember v (_roles m) (serverDeaf m) (serverMute m) (selfMute m)
              (selfDeaf m) (voiceSessionID m) (voiceChannelID m) (speaking m)
              (nickname m) (_joinDate m)).

Definition set__roles (v : loc) : M unit :=
  m <- get_this;;
  put_this (mkMember (user m) v (serverDeaf m) (serverMute m) (selfMute m)
              (selfDeaf m) (voiceSessionID m) (voiceChannelID m) (speaking m)
              (nickname m) (_joinDate m)).

Definition set_serverDeaf (v : option bool) : M unit :=
  m <- get_this;;
  put_this (mkMember (user m) (_roles m) v (serverMute m) (selfMute m)
              (selfDeaf m) (voiceSessionID m) (voiceChannelID m) (speaking m)
              (nickname m) (_joinDate m)).

Definition set_serverMute (v : option bool) : M unit :=
  m <- get_this;;
  put_this (mkMember (user m) (_roles m) (serverDeaf m) v (selfMute m)
              (selfDeaf m) (voiceSessionID m) (voiceChannelID m) (speaking m)
              (nickname m) (_joinDate m)).

Definition set_selfMute (v : option bool) : M unit :=
  m <- get_this;;
  put_this (mkMember (user m) (_roles m) (serverDeaf m) (serverMute m) v
              (selfDeaf m) (voiceSessionID m) (voiceChannelID m) (speaking m)
              (nickname m) (_joinDate m)).

Definition set_selfDeaf (v : option bool) : M unit :=
  m <- get_this;;
  put_this (mkMember (user m) (_roles m) (serverDeaf m) (serverMute m)
              (selfMute m) v (voiceSessionID m) (voiceChannelID m) (speaking m)
              (nickname m) (_joinDate m)).

Definition set_voiceSessionID (v : option string) : M unit :=
  m <- get_this;;
  put_this (mkMember (user m) (_roles m) (serverDeaf m) (serverMute m)
              (selfMute m) (selfDeaf m) v (voiceChannelID m) (speaking m)
              (nickname m) (_joinDate m)).

Definition set_voiceChannelID (v : option string) : M unit :=
  m <- get_this;;
  put_this (mkMember (user m) (_roles m) (serverDeaf m) (serverMute m)
              (selfMute m) (selfDeaf m) (voiceSessionID m) v (speaking m)
              (nickname m) (_joinDate m)).

Definition set_speaking (v : option bool) : M unit :=
  m <- get_this;;
  put_this (mkMember (user m) (_roles m) (serverDeaf m) (serverMute m)
              (selfMute m) (selfDeaf m) (voiceSessionID m) (voiceChannelID m) v
              (nickname m) (_joinDate m)).

Definition set_nickname (v : option string) : M unit :=
  m <- get_this;;
  put_this (mkMember (user m) (_roles m) (serverDeaf m) (serverMute m)
              (selfMute m) (selfDeaf m) (voiceSessionID m) (voiceChannelID m)
              (speaking m) v (_joinDate m)).

Definition set__joinDate (v : option TimeValue) : M unit :=
  m <- get_this;;
  put_this (mkMember (user m) (_roles m) (serverDeaf m) (serverMute m)
              (selfMute m) (selfDeaf m) (voiceSessionID m) (voiceChannelID m)
              (speaking m) (nickname m) v).

(** [a || b] on values that are [true], [false] or [undefined]. *)
Definition js_or (a b : option bool) : option bool :=
  match a with Some true => a | _ => b end.

(** [map.get(key)] where [key] is an element of a role array: the registry
    is keyed by strings, so an object key finds nothing. *)
Definition get_item {V : Type} (c : Collection.t V) (key : Item) : option V :=
  match key with
  | IStr s => Collection.get c s
  | IRole _ => None
  end.

(** ** The class *)

Module GuildMember.

Definition setup (data : Data.t) : M unit :=
  set_serverDeaf (Some (Data.deaf data));;
  set_serverMute (Some (Data.mute data));;
  set_selfMute (Some (Data.self_mute data));;
  set_selfDeaf (Some (Data.self_deaf data));;
  set_voiceSessionID (Data.session_id data);;
  set_voiceChannelID (Data.channel_id data);;
  (m <- get_this;; set_speaking (speaking m));;
  set_nickname (Data.nick data);;
  set_user (Some (Data.user data));;
  set__roles (Data.roles data);;
  (t <- Date_getTime (Data.joined_at data);; set__joinDate (Some t)).

(** [new GuildMember(guild, data)] for the guild of the world: the new
    object becomes [this]. *)
Definition constructor (data : option Data.t) : M unit :=
  r <- alloc [];;
  put_this (mkMember None r None None None None None None None None None);;
  match data with
  | Some d => setup d
  | None => ret tt
  end.

(** The time value of [new Date(this._joinDate)]; the date made from
    [undefined] is invalid. *)
Definition joinDate : M TimeValue :=
  m <- get_this;;
  ret (match _joinDate m with Some t => t | None => NaN end).

(** The body of the loop of [roles]: one stored identifier. *)
Definition roles_step (reg : Collection.t Role.t)
    (list : Collection.t Role.t) (roleID : Item) : Collection.t Role.t :=
  match get_item reg roleID with
  | Some role => Collection.set list (Role.id role) role
  | None => list
  end.

(** The collection that [roles] builds from the registry, the guild's
    identifier and the content of [_roles]. *)
Definition roles_of (reg : Collection.t Role.t) (gid : string)
    (stored : list Item) : Collection.t Role.t :=
  let list := Collection.empty in
  let everyoneRole := Collection.get reg gid in
  let list := match everyoneRole with
              | Some r => Collection.set list (Role.id r) r
              | None => list
              end in
  fold_left (roles_step reg) stored list.

Definition roles : M (Collection.t Role.t) :=
  g <- get_guild;;
  m <- get_this;;
  stored <- read (_roles m);;
  ret (roles_of (guild_roles g) (guild_id g) stored).

Definition mute : M (option bool) :=
  m <- get_this;; ret (js_or (selfMute m) (serverMute m)).

Definition deaf : M (option bool) :=
  m <- get_this;; ret (js_or (selfDeaf m) (serverDeaf m)).

Definition voiceChannel : M (option Channel.t) :=
  g <- get_guild;;
  m <- get_this;;
  ret (k ← voiceChannelID m; Collection.get (guild_channels g) k).

Definition edit (data : EditData) : M unit :=
  RESTMethods.updateGuildMember data.

Definition setMute (mute : bool) : M unit :=
  edit (mkEdit (Some mute) None None None None).

Definition setDeaf (deaf : bool) : M unit :=
  edit (mkEdit None (Some deaf) None None None).

Definition setVoiceChannel (channel : string) : M unit :=
  edit (mkEdit None None (Some channel) None None).

Definition setRoles (roles : Roles) : M unit :=
  edit (mkEdit None None None (Some roles) None).

Definition addRoles (roles : Roles) : M unit :=
  m <- get_this;;
  allRoles <- match roles with
              | RCollection c =>
                  allRoles <- slice (_roles m);;
                  for_of (Collection.values c)
                    (λ role, push allRoles (IStr (Role.id role)));;
                  ret allRoles
              | RArray a => concat (_roles m) a
              end;;
  edit (mkEdit None None None (Some (RArray allRoles)) None).

Definition addRole (role : Item) : M unit :=
  a <- alloc [role];; addRoles (RArray a).

Definition removeRoles (roles : Roles) : M unit :=
  m <- get_this;;
  allRoles <- slice (_roles m);;
  match roles with
  | RCollection c =>
      for_of (Collection.values c)
        (λ role,
           index <- indexOf allRoles (Role.id role);;
           if 0 <=? index then splice allRoles index 1 else ret tt)
  | RArray a =>
      requested <- read a;;
      for_of requested
        (λ role,
           index <- indexOf allRoles (resolve_id role);;
           if 0 <=? index then splice allRoles index 1 else ret tt)
  end;;
  edit (mkEdit None None None (Some (RArray allRoles)) None).

Definition removeRole (role : Item) : M unit :=
  a <- alloc [role];; removeRoles (RArray a).

Definition setNickname (nick : string) : M unit :=
  edit (mkEdit None None None None (Some nick)).

Definition deleteDM : M unit := RESTMethods.deleteChannel.

Definition kick : M unit := RESTMethods.kickGuildMember.

(** [ban(deleteDays = 0)]: [None] is an omitted argument. *)
Definition ban (deleteDays : option Z) : M unit :=
  let deleteDays := default 0 deleteDays in
  RESTMethods.banGuildMember deleteDays.

Definition id : M (option string) :=
  m <- get_this;; ret (User.id <$> user m).

End GuildMember.

(** ** The owner of the registry *)

(** [guild.roles.delete(k)], done by the guild when a role is deleted on the
    platform; the member takes no part in it. *)
Definition delete_role (k : string) : M unit :=
  λ w, let g := guild w in
       Some (tt, mkWorld (heap w)
                   (mkGuild (guild_id g) (Collection.delete (guild_roles g) k)
                      (guild_channels g))
                   (this w) (rest w) (engine w)).

(** ** Vocabulary of the statements *)

#[global] Instance Role_eq_dec : EqDecision Role.t.
Proof. solve_decision. Defined.

#[global] Instance Item_eq_dec : EqDecision Item.
Proof. solve_decision. Defined.

(** The role update that carries the array at [l]. *)
Definition roles_update (l : loc) : RestCall :=
  UpdateGuildMember (mkEdit None None None (Some (RArray l)) None).

(** Run from [w], [m] ends in [w'] having sent one more request: a role
    update whose array holds [content]. *)
Definition submits_roles (m : M unit) (w : World) (content : list Item)
    (w' : World) : Prop :=
  ∃ l, m w = Some (tt, w')
       ∧ rest w' = rest w ++ [roles_update l]
       ∧ heap w' !! l = Some content.

(** The content of the member's stored role list. *)
Definition stored_roles (w : World) : option (list Item) :=
  heap w !! _roles (this w).

(** The entries that [addRoles] takes from its argument: the identifiers of
    a collection's roles, or the elements of an array as they are. *)
Definition additions (w : World) (arg : Roles) : option (list Item) :=
  match arg with
  | RCollection c => Some (map (λ r, IStr (Role.id r)) (Collection.values c))
  | RArray a => heap w !! a
  end.

(** The identifiers that [removeRoles] is asked to remove. *)
Definition requested (w : World) (arg : Roles) : option (list string) :=
  match arg with
  | RCollection c => Some (map Role.id (Collection.values c))
  | RArray a => map resolve_id <$> heap w !! a
  end.

(** The union that the specification describes: the stored list, then each
    addition that is not yet present, in argument order. *)
Fixpoint union_append (stored added : list Item) : list Item :=
  match added with
  | [] => stored
  | x :: added' =>
      union_append (if decide (x ∈ stored) then stored else stored ++ [x]) added'
  end.

(** Dropping the first occurrence of an identifier. *)
Fixpoint remove_first (k : string) (a : list Item) : list Item :=
  match a with
  | [] => []
  | x :: a' => if decide (x = IStr k) then a' else x :: remove_first k a'
  end.

Definition occurrences {A : Type} `{EqDecision A} (x : A) (l : list A) : nat :=
  length (filter (λ y, y = x) l).

(** The mutation operations of the member, with their arguments. *)
Inductive Mutation : Type :=
| SetMute (b : bool)
| SetDeaf (b : bool)
| SetVoiceChannel (channel : string)
| SetNickname (nick : string)
| SetRoles (roles : Roles)
| AddRole (role : Item)
| AddRoles (roles : Roles)
| RemoveRole (role : Item)
| RemoveRoles (roles : Roles)
| Kick
| Ban (deleteDays : option Z).

Definition run_mutation (op : Mutation) : M unit :=
  match op with
  | SetMute b => GuildMember.setMute b
  | SetDeaf b => GuildMember.setDeaf b
  | SetVoiceChannel c => GuildMember.setVoiceChannel c
  | SetNickname n => GuildMember.setNickname n
  | SetRoles r => GuildMember.setRoles r
  | AddRole r => GuildMember.addRole r
  | AddRoles r => GuildMember.addRoles r
  | RemoveRole r => GuildMember.removeRole r
  | RemoveRoles r => GuildMember.removeRoles r
  | Kick => GuildMember.kick
  | Ban d => GuildMember.ban d
  end.

(** Every array that a mutation reads exists: the stored list and, when the
    argument is an array, the argument. *)
Definition refs_ok (w : World) (op : Mutation) : Prop :=
  is_Some (stored_roles w)
  ∧ match op with
    | SetRoles (RArray a) | AddRoles (RArray a) | RemoveRoles (RArray a) =>
        is_Some (heap w !! a)
    | _ => True
    end.

(** The world in which a method has built one new array and sent it in a
    role update, everything else being as it was. *)
Definition submitted (w : World) (content : list Item) : World :=
  mkWorld (heap w ++ [content]) (guild w) (this w)
    (rest w ++ [roles_update (length (heap w))]) (engine w).

(** The world in which a request has been sent and nothing else changed. *)
Definition sent (w : World) (c : RestCall) : World :=
  mkWorld (heap w) (guild w) (this w) (rest w ++ [c]) (engine w).

(** The world in which a method has first built the one-element array of
    its argument, then a second array, and sent the second. *)
Definition submitted_one (w : World) (x : Item) (content : list Item) : World :=
  submitted (put_heap (heap w ++ [[x]]) w) content.

(** The array of the role update sent last. *)
Definition last_submitted : M loc :=
  λ w, match last (rest w) with
       | Some (UpdateGuildMember (mkEdit _ _ _ (Some (RArray l)) _)) => Some (l, w)
       | _ => None
       end.

Definition with_roles (data : Data.t) (l : loc) : Data.t :=
  Data.mk (Data.deaf data) (Data.mute data) (Data.self_mute data)
    (Data.self_deaf data) (Data.session_id data) (Data.channel_id data)
    (Data.nick data) (Data.user data) l (Data.joined_at data).

(** [addRoles([a, b])], a refresh that brings back the list just sent, then
    [removeRoles([a])]. *)
Definition add_then_remove (a b : string) (data : Data.t) : M unit :=
  ab <- alloc [IStr a; IStr b];;
  GuildMember.addRoles (RArray ab);;
  sent_list <- last_submitted;;
  GuildMember.setup (with_roles data sent_list);;
  only_a <- alloc [IStr a];;
  GuildMember.removeRoles (RArray only_a).

(** Two reads of the view with a deletion from the registry in between and
    no refresh of the member. *)
Definition roles_around_delete (k : string)
  : M (Collection.t Role.t * Collection.t Role.t) :=
  before <- GuildMember.roles;;
  delete_role k;;
  after <- GuildMember.roles;;
  ret (before, after).

(** The join timestamp read after construction from [first] and again after
    a refresh with [second]. *)
Definition joinDate_around_setup (first second : Data.t)
  : M (TimeValue * TimeValue) :=
  GuildMember.constructor (Some first);;
  before <- GuildMember.joinDate;;
  GuildMember.setup second;;
  after <- GuildMember.joinDate;;
  ret (before, after).

(** ** Sample worlds *)

Definition everyone : Role.t := Role.mk "G" "@everyone".
Definition role1 : Role.t := Role.mk "R1" "moderator".

Definition sample_guild : Guild :=
  mkGuild "G" [("G", everyone); ("R1", role1)] [].

Definition sample_user : User.t := User.mk "U1" "al".

Definition blank (r : loc) : Member :=
  mkMember None r None None None None None None None None None.

Definition sample_data (roles : loc) (joined : string) : Data.t :=
  Data.mk false false false false None None (Some "Al") sample_user roles joined.

(** A sample engine, which makes no time value of any string it is asked
    about; the samples give their dates in the portable form, for which no
    engine is asked. *)
Definition no_fallback : string → TimeValue := λ _, NaN.

(** A world whose heap holds the arrays [arrays]; the member's stored list
    is the first of them. *)
Definition sample_world (g : Guild) (arrays : list (list Item)) : World :=
  mkWorld arrays g (blank 0%nat) [] no_fallback.

(** ** Vocabulary of the further properties *)

(** What the registry holds under the guild's own identifier, as an entry
    of the view. *)
Definition default_entry (reg : Collection.t Role.t) (gid : string)
  : list (string * Role.t) :=
  match Collection.get reg gid with
  | Some r => [(gid, r)]
  | None => []
  end.

(** The registry entries of the stored identifiers, in stored order; an
    element with no entry in the registry gives none. *)
Fixpoint registered_entries (reg : Collection.t Role.t) (stored : list Item)
  : list (string * Role.t) :=
  match stored with
  | [] => []
  | IStr s :: stored' =>
      match Collection.get reg s with
      | Some r => (s, r) :: registered_entries reg stored'
      | None => registered_entries reg stored'
      end
  | IRole _ :: stored' => registered_entries reg stored'
  end.

(** What the loop of [roles] keeps true of the view, whatever the registry:
    every entry sits under the [id] of its role, which the registry holds
    under an identifier among [looked]. *)
Definition from_registry (reg : Collection.t Role.t) (looked : string → Prop)
    (c : Collection.t Role.t) : Prop :=
  ∀ k r, Collection.get c k = Some r →
         Role.id r = k ∧ ∃ k', Collection.get reg k' = Some r ∧ looked k'.

(** A refresh whose data carries the array of the role update sent last. *)
Definition refresh_with_last (data : Data.t) : M unit :=
  sent_list <- last_submitted;;
  GuildMember.setup (with_roles data sent_list).

(** A value that an [if] or an [||] of JavaScript takes for true. *)
Definition truthy (v : option bool) : Prop := v = Some true.

(** The member that [setup] leaves, given the engine and the value of
    [speaking]. *)
Definition refreshed (e : string → TimeValue) (data : Data.t)
    (sp : option bool) : Member :=
  mkMember (Some (Data.user data)) (Data.roles data)
    (Some (Data.deaf data)) (Some (Data.mute data))
    (Some (Data.self_mute data)) (Some (Data.self_deaf data))
    (Data.session_id data) (Data.channel_id data) sp (Data.nick data)
    (Some (DateParse.getTime e (Data.joined_at data))).

(** The world in which the list [content] was sent in a role update and
    then came back in a refresh with [data]. *)
Definition applied (w : World) (content : list Item) (data : Data.t) : World :=
  mkWorld (heap w ++ [content]) (guild w)
    (refreshed (engine w) (with_roles data (length (heap w)))
       (speaking (this w)))
    (rest w ++ [roles_update (length (heap w))]) (engine w).

(** [addRoles(roles)], the refresh that answers it, then
    [removeRoles(roles)] with the same argument. *)
Definition add_refresh_remove (roles : Roles) (data : Data.t) : M unit :=
  GuildMember.addRoles roles;;
  refresh_with_last data;;
  GuildMember.removeRoles roles.

(** The view read once the refresh that answers the role request [m] has
    arrived. *)
Definition roles_after (m : M unit) (data : Data.t) : M (Collection.t Role.t) :=
  m;;
  refresh_with_last data;;
  GuildMember.roles.

(** The view read after a refresh with [data] and a later change, by the
    owner of [data], of its [roles] array to [a]. *)
Definition roles_after_foreign_write (data : Data.t) (a : list Item)
  : M (Collection.t Role.t) :=
  GuildMember.setup data;;
  write (Data.roles data) a;;
  GuildMember.roles.

(** * Properties *)

(** ** Collections *)

Section collection_facts.
Context {V : Type}.
Implicit Types (c : Collection.t V) (k : string) (v : V).

Lemma get_set c k v k' :
  Collection.get (Collection.set c k v) k'
  = if String.eqb k k' then Some v else Collection.get c k'.
Proof.
  induction c as [|[k0 v0] c IH]; simpl.
  - destruct (String.eqb_spec k k'); reflexivity.
  - destruct (String.eqb_spec k0 k) as [->|Hne]; simpl.
    + destruct (String.eqb_spec k k'); reflexivity.
    + rewrite IH.
      destruct (String.eqb_spec k0 k') as [->|]; [|reflexivity].
      destruct (String.eqb_spec k k'); congruence.
Qed.

Lemma get_delete c k k' :
  Collection.get (Collection.delete c k) k'
  = if String.eqb k k' then None else Collection.get c k'.
Proof.
  induction c as [|[k0 v0] c IH]; simpl.
  - destruct (String.eqb k k'); reflexivity.
  - destruct (String.eqb_spec k0 k) as [->|Hne]; simpl.
    + rewrite IH. destruct (String.eqb_spec k k'); reflexivity.
    + rewrite IH.
      destruct (String.eqb_spec k0 k') as [->|]; [|reflexivity].
      destruct (String.eqb_spec k k'); congruence.
Qed.

Lemma get_delete_same c k : Collection.get (Collection.delete c k) k = None.
Proof. rewrite get_delete, String.eqb_refl. reflexivity. Qed.
End collection_facts.

Lemma keyed_by_id_delete reg k :
  keyed_by_id reg → keyed_by_id (Collection.delete reg k).
Proof.
  intros Hk k' r. rewrite get_delete.
  destruct (String.eqb k k'); [discriminate|]. apply Hk.
Qed.

(** ** The effective roles *)

Section roles_facts.
Variable reg : Collection.t Role.t.
Hypothesis Hkeyed : keyed_by_id reg.

(** One step of the loop, seen through [get]. *)
Lemma get_roles_step_same list k :
  Collection.get (GuildMember.roles_step reg list (IStr k)) k
  = match Collection.get reg k with
    | Some r => Some r
    | None => Collection.get list k
    end.
Proof.
  unfold GuildMember.roles_step; simpl.
  destruct (Collection.get reg k) as [r|] eqn:E; [|reflexivity].
  rewrite get_set, (Hkeyed _ _ E), String.eqb_refl. reflexivity.
Qed.

Lemma get_roles_step_other list x k :
  x ≠ IStr k →
  Collection.get (GuildMember.roles_step reg list x) k = Collection.get list k.
Proof.
  intros Hne. unfold GuildMember.roles_step.
  destruct x as [r|s]; simpl; [reflexivity|].
  destruct (Collection.get reg s) as [r|] eqn:E; [|reflexivity].
  rewrite get_set, (Hkeyed _ _ E).
  destruct (String.eqb_spec s k); congruence.
Qed.

Lemma get_roles_loop stored : ∀ list k,
  Collection.get (fold_left (GuildMember.roles_step reg) stored list) k
  = if decide (IStr k ∈ stored)
    then match Collection.get reg k with
         | Some r => Some r
         | None => Collection.get list k
         end
    else Collection.get list k.
Proof.
  induction stored as [|x stored IH]; intros list k.
  - reflexivity.
  - cbn [fold_left]. rewrite IH. destruct (decide (x = IStr k)) as [->|Hne].
    + rewrite get_roles_step_same.
      rewrite (decide_True (P := IStr k ∈ IStr k :: stored))
        by apply list_elem_of_here.
      destruct (Collection.get reg k); case_decide; reflexivity.
    + rewrite get_roles_step_other by assumption.
      repeat case_decide; try reflexivity.
      * exfalso. eauto using list_elem_of_further.
      * exfalso. match goal with H : _ ∈ _ :: _ |- _ =>
          apply elem_of_cons in H as [?|?] end; congruence.
Qed.

(** The view holds, under each identifier that it looks up, what the
    registry holds there, and nothing else. *)
Lemma get_roles_of gid stored k :
  Collection.get (GuildMember.roles_of reg gid stored) k
  = if decide (k = gid ∨ IStr k ∈ stored) then Collection.get reg k else None.
Proof.
  unfold GuildMember.roles_of. rewrite get_roles_loop.
  destruct (decide (IStr k ∈ stored)) as [Hin|Hnin].
  - rewrite decide_True by (right; assumption).
    destruct (Collection.get reg k) as [r|] eqn:E; [reflexivity|].
    destruct (Collection.get reg gid) as [r|] eqn:Eg; [|reflexivity].
    simpl. rewrite (Hkeyed _ _ Eg).
    destruct (String.eqb_spec gid k); congruence.
  - destruct (Collection.get reg gid) as [r|] eqn:Eg; simpl.
    + rewrite (Hkeyed _ _ Eg).
      destruct (String.eqb_spec gid k) as [->|Hne].
      * rewrite decide_True by (left; reflexivity). congruence.
      * rewrite decide_False; [reflexivity|]. intros [?|?]; congruence.
    + destruct (decide (k = gid ∨ IStr k ∈ stored)) as [[->|?]|?];
        congruence.
Qed.

(** The default role, when registered, is the first entry of the view. *)
Lemma roles_loop_head stored : ∀ k r list,
  Collection.get reg k = Some r →
  hd_error (fold_left (GuildMember.roles_step reg) stored ((k, r) :: list))
  = Some (k, r).
Proof.
  induction stored as [|x stored IH]; intros k r list Hk; simpl; [reflexivity|].
  unfold GuildMember.roles_step at 2.
  destruct (get_item reg x) as [role|] eqn:E; [|apply IH; assumption].
  simpl. destruct (String.eqb_spec k (Role.id role)) as [Heq|Hne].
  - destruct x as [?|s]; simpl in E; [discriminate|].
    pose proof (Hkeyed _ _ E) as Hs. rewrite Hs in Heq. subst s.
    replace role with r by congruence.
    apply IH. assumption.
  - apply IH. assumption.
Qed.
End roles_facts.

(** ** Running the monad *)

Lemma bind_run {A B : Type} (m : M A) (f : A → M B) w a w' :
  m w = Some (a, w') → bind m f w = f a w'.
Proof. intros H. unfold bind. rewrite H. reflexivity. Qed.

Lemma put_heap_same w : put_heap (heap w) w = w.
Proof. destruct w; reflexivity. Qed.

Lemma put_heap_twice h1 h2 w : put_heap h2 (put_heap h1 w) = put_heap h2 w.
Proof. reflexivity. Qed.

Lemma read_run w l a : heap w !! l = Some a → read l w = Some (a, w).
Proof. intros H. unfold read. rewrite H. reflexivity. Qed.

Lemma write_run w l a b :
  heap w !! l = Some b →
  write l a w = Some (tt, put_heap (<[l := a]> (heap w)) w).
Proof. intros H. unfold write. rewrite H. reflexivity. Qed.

(** Reading an array and writing back a function of it. *)
Lemma update_run (f : list Item → list Item) w l a :
  heap w !! l = Some a →
  (a <- read l;; write l (f a)) w
  = Some (tt, put_heap (<[l := f a]> (heap w)) w).
Proof.
  intros H. rewrite (bind_run _ _ _ _ _ (read_run _ _ _ H)).
  apply (write_run _ _ _ _ H).
Qed.

(** A loop whose body rewrites one array rewrites it by the fold of the
    body's effect. *)
Lemma for_of_update {A : Type} (body : A → M unit) (l : loc)
    (f : list Item → A → list Item) :
  (∀ x w a, heap w !! l = Some a →
            body x w = Some (tt, put_heap (<[l := f a x]> (heap w)) w)) →
  ∀ xs w a, heap w !! l = Some a →
            for_of xs body w
            = Some (tt, put_heap (<[l := fold_left f xs a]> (heap w)) w).
Proof.
  intros Hbody xs. induction xs as [|x xs IH]; intros w a Hl; simpl.
  - rewrite list_insert_id by assumption. rewrite put_heap_same. reflexivity.
  - rewrite (bind_run _ _ _ _ _ (Hbody x w a Hl)).
    assert (Hlt : (l < length (heap w))%nat) by (eapply lookup_lt_Some; eassumption).
    rewrite (IH _ (f a x)) by (simpl; apply list_lookup_insert_eq; assumption).
    simpl. rewrite put_heap_twice, list_insert_insert_eq. reflexivity.
Qed.

Lemma fold_left_map_arg {A B C : Type} (f : A → C → A) (g : B → C) xs : ∀ a,
  fold_left (λ a x, f a (g x)) xs a = fold_left f (map g xs) a.
Proof. induction xs as [|x xs IH]; intros a; simpl; [reflexivity|apply IH]. Qed.

Lemma fold_left_snoc (xs : list Item) : ∀ a (g : Role.t → Item) (rs : list Role.t),
  xs = map g rs →
  fold_left (λ a r, a ++ [g r]) rs a = a ++ xs.
Proof.
  intros a g rs ->. revert a.
  induction rs as [|r rs IH]; intros a; simpl.
  - rewrite app_nil_r. reflexivity.
  - rewrite IH, <- app_assoc. reflexivity.
Qed.

Lemma insert_fresh (h : list (list Item)) a b :
  <[length h := b]> (h ++ [a]) = h ++ [b].
Proof.
  rewrite insert_app_r_alt by lia. rewrite Nat.sub_diag. reflexivity.
Qed.

Lemma lookup_fresh (h : list (list Item)) a : (h ++ [a]) !! length h = Some a.
Proof. rewrite lookup_app_r by lia. rewrite Nat.sub_diag. reflexivity. Qed.

(** ** Array searches and removals *)

Lemma remove_first_absent k a : IStr k ∉ a → remove_first k a = a.
Proof.
  induction a as [|x a IH]; intros Hn; simpl; [reflexivity|].
  apply not_elem_of_cons in Hn as [Hx Ha].
  rewrite decide_False by congruence. rewrite IH by assumption. reflexivity.
Qed.

Lemma remove_first_split k l1 l2 :
  IStr k ∉ l1 → remove_first k (l1 ++ IStr k :: l2) = l1 ++ l2.
Proof.
  induction l1 as [|x l1 IH]; intros Hn; simpl.
  - rewrite decide_True by reflexivity. reflexivity.
  - apply not_elem_of_cons in Hn as [Hx Ha].
    rewrite decide_False by congruence. rewrite IH by assumption. reflexivity.
Qed.

(** [indexOf] answers [-1] exactly when the identifier is absent, and
    otherwise the position of its first occurrence. *)
Lemma indexOf_from_spec k a : ∀ i,
  ((IStr k ∉ a) ∧ JSArray.indexOf_from a k i = -1)
  ∨ (∃ l1 l2, a = l1 ++ IStr k :: l2 ∧ (IStr k ∉ l1)
              ∧ JSArray.indexOf_from a k i = i + Z.of_nat (length l1)).
Proof.
  induction a as [|x a IH]; intros i.
  - left. split; [apply not_elem_of_nil|reflexivity].
  - destruct x as [r|s]; simpl.
    + destruct (IH (i + 1)) as [[Hn He]|(l1 & l2 & -> & Hn & He)].
      * left. split; [|assumption].
        apply not_elem_of_cons. split; [discriminate|assumption].
      * right. exists (IRole r :: l1), l2. split; [reflexivity|]. split.
        -- apply not_elem_of_cons. split; [discriminate|assumption].
        -- rewrite He. simpl length. lia.
    + destruct (String.eqb_spec s k) as [->|Hne].
      * right. exists [], a. split; [reflexivity|]. split.
        -- apply not_elem_of_nil.
        -- simpl. lia.
      * destruct (IH (i + 1)) as [[Hn He]|(l1 & l2 & -> & Hn & He)].
        -- left. split; [|assumption].
           apply not_elem_of_cons. split; [congruence|assumption].
        -- right. exists (IStr s :: l1), l2. split; [reflexivity|]. split.
           ++ apply not_elem_of_cons. split; [congruence|assumption].
           ++ rewrite He. simpl length. lia.
Qed.

Lemma splice_one l1 x l2 :
  JSArray.splice (l1 ++ x :: l2) (Z.of_nat (length l1)) 1 = l1 ++ l2.
Proof.
  unfold JSArray.splice. rewrite length_app. simpl length.
  rewrite (proj2 (Z.ltb_ge _ _)) by lia.
  rewrite Z.min_l by lia. rewrite Z.max_l by lia. rewrite Z.min_l by lia.
  rewrite Nat2Z.id.
  replace (Z.to_nat (Z.of_nat (length l1) + 1)) with (S (length l1)) by lia.
  rewrite take_app_length.
  change (l1 ++ x :: l2) with (l1 ++ [x] ++ l2).
  rewrite app_assoc.
  replace (S (length l1)) with (length (l1 ++ [x]))
    by (rewrite length_app; simpl; lia).
  rewrite drop_app_length. reflexivity.
Qed.

(** The body of the loops of [removeRoles], on the content of the array. *)
Lemma index_then_splice k a :
  (if 0 <=? JSArray.indexOf a k
   then JSArray.splice a (JSArray.indexOf a k) 1
   else a)
  = remove_first k a.
Proof.
  unfold JSArray.indexOf.
  destruct (indexOf_from_spec k a 0) as [[Hn He]|(l1 & l2 & -> & Hn & He)];
    rewrite He.
  - simpl. symmetry. apply remove_first_absent. assumption.
  - rewrite (proj2 (Z.leb_le _ _)) by lia. rewrite Z.add_0_l.
    rewrite splice_one, remove_first_split by assumption. reflexivity.
Qed.

Lemma remove_step_run (l : loc) (k : string) w a :
  heap w !! l = Some a →
  bind (indexOf l k)
    (λ index, if 0 <=? index then splice l index 1 else ret tt) w
  = Some (tt, put_heap (<[l := remove_first k a]> (heap w)) w).
Proof.
  intros Hl. unfold indexOf.
  rewrite (bind_run _ _ _ _ _ (bind_run _ _ _ _ _ (read_run _ _ _ Hl))).
  unfold ret at 1. rewrite <- index_then_splice.
  destruct (0 <=? JSArray.indexOf a k).
  - unfold splice. apply update_run with (f := λ a, JSArray.splice a _ 1).
    assumption.
  - unfold ret. rewrite list_insert_id by assumption.
    rewrite put_heap_same. reflexivity.
Qed.

(** ** The role methods, run *)

Lemma slice_run w l a :
  heap w !! l = Some a →
  slice l w = Some (length (heap w), put_heap (heap w ++ [a]) w).
Proof.
  intros H. unfold slice. rewrite (bind_run _ _ _ _ _ (read_run _ _ _ H)).
  reflexivity.
Qed.

Lemma concat_run w l l' a b :
  heap w !! l = Some a → heap w !! l' = Some b →
  concat l l' w = Some (length (heap w), put_heap (heap w ++ [a ++ b]) w).
Proof.
  intros Ha Hb. unfold concat.
  rewrite (bind_run _ _ _ _ _ (read_run _ _ _ Ha)).
  rewrite (bind_run _ _ _ _ _ (read_run _ _ _ Hb)).
  reflexivity.
Qed.

Lemma edit_run w data :
  GuildMember.edit data w = Some (tt, sent w (UpdateGuildMember data)).
Proof. reflexivity. Qed.

(** A loop on the array that [slice] has just made. *)
Lemma for_of_fresh {A : Type} (body : A → M unit) (f : list Item → A → list Item)
    w stored xs :
  (∀ x w' a, heap w' !! length (heap w) = Some a →
             body x w'
             = Some (tt, put_heap (<[length (heap w) := f a x]> (heap w')) w')) →
  for_of xs body (put_heap (heap w ++ [stored]) w)
  = Some (tt, put_heap (heap w ++ [fold_left f xs stored]) w).
Proof.
  intros Hbody.
  rewrite (for_of_update body (length (heap w)) f Hbody xs _ stored)
    by apply lookup_fresh.
  simpl. rewrite insert_fresh. reflexivity.
Qed.

Lemma addRoles_run w arg stored added :
  stored_roles w = Some stored →
  additions w arg = Some added →
  GuildMember.addRoles arg w = Some (tt, submitted w (stored ++ added)).
Proof.
  unfold stored_roles. intros Hs Ha. unfold GuildMember.addRoles.
  rewrite (bind_run _ _ _ (this w) w eq_refl).
  destruct arg as [c|a]; simpl in Ha.
  - injection Ha as <-.
    match goal with |- bind ?m _ _ = _ =>
      assert (Hin : m w = Some (length (heap w),
                                put_heap (heap w ++ [stored ++ map (λ r, IStr (Role.id r))
                                                                 (Collection.values c)]) w))
    end.
    { rewrite (bind_run _ _ _ _ _ (slice_run _ _ _ Hs)).
      erewrite bind_run; [reflexivity|].
      rewrite (for_of_fresh _ (λ a role, a ++ [IStr (Role.id role)])).
      + rewrite (fold_left_snoc _ _ _ _ eq_refl). reflexivity.
      + intros x w' a Hl. unfold push.
        apply update_run with (f := λ a, a ++ [IStr (Role.id x)]). assumption. }
    rewrite (bind_run _ _ _ _ _ Hin). reflexivity.
  - rewrite (bind_run _ _ _ _ _ (concat_run _ _ _ _ _ Hs Ha)). reflexivity.
Qed.

Lemma removeRoles_run w arg stored keys :
  stored_roles w = Some stored →
  requested w arg = Some keys →
  GuildMember.removeRoles arg w
  = Some (tt, submitted w (fold_left (λ a k, remove_first k a) keys stored)).
Proof.
  unfold stored_roles. intros Hs Hk. unfold GuildMember.removeRoles.
  rewrite (bind_run _ _ _ (this w) w eq_refl).
  rewrite (bind_run _ _ _ _ _ (slice_run _ _ _ Hs)).
  destruct arg as [c|a]; simpl in Hk.
  - injection Hk as <-.
    rewrite (bind_run _ _ _ _ _
               (for_of_fresh _ (λ a role, remove_first (Role.id role) a)
                  w stored (Collection.values c)
                  (λ x w' a Hl, remove_step_run _ _ w' a Hl))).
    rewrite fold_left_map_arg with (f := λ a k, remove_first k a).
    reflexivity.
  - destruct (heap w !! a) as [items|] eqn:Ha; [|discriminate].
    injection Hk as <-.
    assert (Hr : read a (put_heap (heap w ++ [stored]) w)
                 = Some (items, put_heap (heap w ++ [stored]) w)).
    { apply read_run. simpl. apply lookup_app_l_Some. assumption. }
    rewrite (bind_run _ _ _ _ _
               (eq_trans (bind_run _ _ _ _ _ Hr)
                  (for_of_fresh _ (λ a role, remove_first (resolve_id role) a)
                     w stored items
                     (λ x w' a Hl, remove_step_run _ _ w' a Hl)))).
    rewrite fold_left_map_arg with (f := λ a k, remove_first k a).
    reflexivity.
Qed.

Lemma stored_roles_alloc w a :
  is_Some (stored_roles w) →
  stored_roles (put_heap (heap w ++ [a]) w) = stored_roles w.
Proof.
  unfold stored_roles. intros [s Hs]. simpl. rewrite Hs.
  apply lookup_app_l_Some. assumption.
Qed.

Lemma addRole_run w x stored :
  stored_roles w = Some stored →
  GuildMember.addRole x w = Some (tt, submitted_one w x (stored ++ [x])).
Proof.
  intros Hs. unfold GuildMember.addRole.
  rewrite (bind_run _ _ _ (length (heap w)) (put_heap (heap w ++ [[x]]) w) eq_refl).
  apply addRoles_run.
  - rewrite stored_roles_alloc by (rewrite Hs; eauto). assumption.
  - simpl. apply lookup_fresh.
Qed.

Lemma removeRole_run w x stored :
  stored_roles w = Some stored →
  GuildMember.removeRole x w
  = Some (tt, submitted_one w x (remove_first (resolve_id x) stored)).
Proof.
  intros Hs. unfold GuildMember.removeRole.
  rewrite (bind_run _ _ _ (length (heap w)) (put_heap (heap w ++ [[x]]) w) eq_refl).
  apply (removeRoles_run _ _ stored [resolve_id x]).
  - rewrite stored_roles_alloc by (rewrite Hs; eauto). assumption.
  - simpl. rewrite lookup_fresh. reflexivity.
Qed.

Lemma submitted_submits m w content :
  m w = Some (tt, submitted w content) →
  submits_roles m w content (submitted w content).
Proof.
  intros H. exists (length (heap w)). split; [assumption|].
  split; [reflexivity|]. simpl. apply lookup_fresh.
Qed.

(** ** The view of the effective roles *)

Lemma roles_run w stored :
  stored_roles w = Some stored →
  GuildMember.roles w
  = Some (GuildMember.roles_of (guild_roles (guild w)) (guild_id (guild w)) stored, w).
Proof.
  unfold stored_roles. intros Hs. unfold GuildMember.roles.
  rewrite (bind_run _ _ _ (guild w) w eq_refl).
  rewrite (bind_run _ _ _ (this w) w eq_refl).
  rewrite (bind_run _ _ _ _ _ (read_run _ _ _ Hs)). reflexivity.
Qed.

(** C1 (as amended): when the registry is keyed by role identifier, the
    [roles] getter returns, under the guild's own identifier, exactly what the
    registry holds there: the default role when it is registered (and then as
    the first entry of the result), nothing when it is not.  This does not
    depend on the stored role list, empty or not. *)
Theorem roles_default_role w stored :
  stored_roles w = Some stored →
  keyed_by_id (guild_roles (guild w)) →
  ∃ c, GuildMember.roles w = Some (c, w)
       ∧ Collection.get c (guild_id (guild w))
         = Collection.get (guild_roles (guild w)) (guild_id (guild w))
       ∧ ∀ r, Collection.get (guild_roles (guild w)) (guild_id (guild w)) = Some r →
              hd_error c = Some (guild_id (guild w), r).
Proof.
  intros Hs Hk. eexists. split; [apply roles_run; eassumption|]. split.
  - rewrite get_roles_of by assumption.
    rewrite decide_True by (left; reflexivity). reflexivity.
  - intros r Hr. unfold GuildMember.roles_of. rewrite Hr. simpl.
    rewrite (Hk _ _ Hr). apply roles_loop_head; assumption.
Qed.

Lemma sample_guild_keyed : keyed_by_id (guild_roles sample_guild).
Proof.
  intros k r. unfold sample_guild. cbn [guild_roles Collection.get].
  destruct (String.eqb_spec "G" k) as [<-|_]; [intros [= <-]; reflexivity|].
  destruct (String.eqb_spec "R1" k) as [<-|_]; [intros [= <-]; reflexivity|].
  discriminate.
Qed.

Lemma roles_default_role_witness :
  ∃ c, GuildMember.roles (sample_world sample_guild [[IStr "R1"; IStr "R2"]])
       = Some (c, sample_world sample_guild [[IStr "R1"; IStr "R2"]])
       ∧ Collection.get c "G" = Some everyone
       ∧ hd_error c = Some ("G", everyone).
Proof.
  destruct (roles_default_role
              (sample_world sample_guild [[IStr "R1"; IStr "R2"]])
              [IStr "R1"; IStr "R2"] eq_refl sample_guild_keyed)
    as (c & Hrun & Hget & Hhd).
  exists c. split; [exact Hrun|]. split; [exact Hget|].
  apply Hhd. reflexivity.
Defined.

(** C1 (as stated) fails: with a non-empty stored list and a registry that
    holds the role R1 but no role under the guild's identifier G, the view
    holds R1 alone and no default role. *)
Lemma roles_without_default :
  let w := sample_world (mkGuild "G" [("R1", role1)] []) [[IStr "R1"]] in
  stored_roles w = Some [IStr "R1"]
  ∧ GuildMember.roles w = Some ([("R1", role1)], w)
  ∧ Collection.get [("R1", role1)] (guild_id (guild w)) = None.
Proof. intros w. split; [reflexivity|split; reflexivity]. Qed.

(** C8: the view is computed from the registry at each access.  For a
    registry keyed by role identifier and an identifier [x] that the getter
    looks up (the guild's own or a stored one) and that is registered, reading
    the view, deleting [x] from the registry and reading again, with no
    refresh of the member, gives the role of [x] in the first result and no
    entry for [x] in the second; neither read fails, and an identifier without
    a registry entry has no entry in either result. *)
Theorem roles_follow_registry w stored x r :
  stored_roles w = Some stored →
  keyed_by_id (guild_roles (guild w)) →
  Collection.get (guild_roles (guild w)) x = Some r →
  x = guild_id (guild w) ∨ IStr x ∈ stored →
  ∃ before after w',
    roles_around_delete x w = Some ((before, after), w')
    ∧ this w' = this w ∧ heap w' = heap w
    ∧ Collection.get before x = Some r
    ∧ Collection.get after x = None
    ∧ ∀ y, Collection.get (guild_roles (guild w)) y = None →
           Collection.get before y = None ∧ Collection.get after y = None.
Proof.
  intros Hs Hk Hx Hlook. unfold roles_around_delete.
  rewrite (bind_run _ _ _ _ _ (roles_run _ _ Hs)).
  erewrite bind_run; [|reflexivity].
  erewrite bind_run; [|apply roles_run; exact Hs].
  do 3 eexists. split; [reflexivity|]. simpl.
  split; [reflexivity|]. split; [reflexivity|].
  pose proof (keyed_by_id_delete _ x Hk) as Hk'.
  split; [|split].
  - rewrite get_roles_of by assumption. rewrite decide_True by assumption.
    assumption.
  - rewrite get_roles_of by assumption.
    case_decide; [apply get_delete_same|reflexivity].
  - intros y Hy. split.
    + rewrite get_roles_of by assumption. case_decide; [assumption|reflexivity].
    + rewrite get_roles_of by assumption. case_decide; [|reflexivity].
      rewrite get_delete. destruct (String.eqb x y); [reflexivity|assumption].
Qed.

Lemma roles_follow_registry_witness :
  ∃ before after w',
    roles_around_delete "R1" (sample_world sample_guild [[IStr "R1"; IStr "R2"]])
    = Some ((before, after), w')
    ∧ Collection.get before "R1" = Some role1
    ∧ Collection.get after "R1" = None
    ∧ Collection.get before "R2" = None.
Proof.
  destruct (roles_follow_registry
              (sample_world sample_guild [[IStr "R1"; IStr "R2"]])
              [IStr "R1"; IStr "R2"] "R1" role1 eq_refl sample_guild_keyed eq_refl
              (or_intror (list_elem_of_here _ _)))
    as (before & after & w' & Hrun & _ & _ & Hb & Ha & Hdrop).
  exists before, after, w'. repeat split; try assumption.
  apply (Hdrop "R2"). reflexivity.
Defined.

(** ** Refresh *)

Lemma setup_run w data :
  GuildMember.setup data w
  = Some (tt, mkWorld (heap w) (guild w)
                (mkMember (Some (Data.user data)) (Data.roles data)
                   (Some (Data.deaf data)) (Some (Data.mute data))
                   (Some (Data.self_mute data)) (Some (Data.self_deaf data))
                   (Data.session_id data) (Data.channel_id data)
                   (speaking (this w)) (Data.nick data)
                   (Some (DateParse.getTime (engine w) (Data.joined_at data))))
                (rest w) (engine w)).
Proof. reflexivity. Qed.

(** C9: after [setup s1] and then [setup s2], every field that the data
    owns holds the value of [s2], the stored role list being the array of
    [s2], while [speaking] is what it was before either call; the heap, the
    guild and the requests sent are untouched. *)
Theorem setup_twice w s1 s2 :
  ∃ w1 w2,
    GuildMember.setup s1 w = Some (tt, w1)
    ∧ GuildMember.setup s2 w1 = Some (tt, w2)
    ∧ serverDeaf (this w2) = Some (Data.deaf s2)
    ∧ serverMute (this w2) = Some (Data.mute s2)
    ∧ selfMute (this w2) = Some (Data.self_mute s2)
    ∧ selfDeaf (this w2) = Some (Data.self_deaf s2)
    ∧ voiceSessionID (this w2) = Data.session_id s2
    ∧ voiceChannelID (this w2) = Data.channel_id s2
    ∧ nickname (this w2) = Data.nick s2
    ∧ user (this w2) = Some (Data.user s2)
    ∧ _roles (this w2) = Data.roles s2
    ∧ stored_roles w2 = heap w !! Data.roles s2
    ∧ speaking (this w2) = speaking (this w1)
    ∧ speaking (this w1) = speaking (this w)
    ∧ heap w2 = heap w ∧ guild w2 = guild w ∧ rest w2 = rest w.
Proof.
  do 2 eexists. split; [apply setup_run|]. split; [apply setup_run|].
  cbn [this heap guild rest serverDeaf serverMute selfMute selfDeaf voiceSessionID
       voiceChannelID nickname user _roles speaking stored_roles].
  unfold stored_roles. cbn [this heap _roles].
  repeat (split; [reflexivity|]). reflexivity.
Qed.

(** C5 (as amended): every [setup] sets the join timestamp anew, to the time
    value that [new Date(joined_at).getTime()] gives for the [joined_at] of
    its data; a later [setup] leaves the timestamp as it was exactly when its
    [joined_at] denotes the time value already stored. *)
Theorem setup_sets_joinDate w data :
  ∃ w', GuildMember.setup data w = Some (tt, w')
        ∧ _joinDate (this w')
          = Some (DateParse.getTime (engine w) (Data.joined_at data))
        ∧ (_joinDate (this w') = _joinDate (this w)
           ↔ _joinDate (this w)
             = Some (DateParse.getTime (engine w) (Data.joined_at data))).
Proof.
  eexists. split; [apply setup_run|]. cbn [this _joinDate].
  split; [reflexivity|]. split; intros H; congruence.
Qed.

(** C5 (as stated) fails: a member built from data that joined on
    2021-01-01 and refreshed with data that says 2022-06-15 has its join
    timestamp moved from the first instant to the second. *)
Lemma setup_moves_joinDate :
  fst <$> joinDate_around_setup
            (sample_data 0%nat "2021-01-01T00:00:00Z")
            (sample_data 0%nat "2022-06-15T12:00:00Z")
            (sample_world sample_guild [[IStr "R1"]])
  = Some (Ms 1609459200000, Ms 1655294400000).
Proof. vm_compute. reflexivity. Qed.

(** ** Removal of the member *)

Lemma ban_run w d :
  GuildMember.ban d w = Some (tt, sent w (BanGuildMember (default 0 d))).
Proof. reflexivity. Qed.

(** C4 (as amended): for every argument, in range or not, [ban] returns
    having submitted the argument itself as the number of days, and 0 when the
    argument is omitted; it rejects nothing and clamps nothing.  So the number
    submitted lies within 0 and 7 exactly when the argument is omitted or lies
    within 0 and 7 itself. *)
Theorem ban_submits_argument w d :
  ∃ n, GuildMember.ban d w = Some (tt, sent w (BanGuildMember n))
       ∧ n = match d with Some x => x | None => 0 end
       ∧ (0 ≤ n ≤ 7 ↔ d = None ∨ ∃ x, d = Some x ∧ 0 ≤ x ≤ 7).
Proof.
  exists (default 0 d). split; [apply ban_run|].
  destruct d as [x|]; simpl; (split; [reflexivity|]).
  - split.
    + intros Hx. right. exists x. split; [reflexivity|exact Hx].
    + intros [Hd|(y & Hy & Hr)]; [discriminate|].
      injection Hy as <-. exact Hr.
  - split; [intros _; left; reflexivity|intros _; lia].
Qed.

(** C4 (as stated) fails: [ban(-1)] submits -1, which is neither rejected
    nor brought into the range of 0 to 7. *)
Lemma ban_out_of_range :
  GuildMember.ban (Some (-1)) (sample_world sample_guild [[]])
  = Some (tt, sent (sample_world sample_guild [[]]) (BanGuildMember (-1)))
  ∧ ¬ (0 ≤ -1 ≤ 7).
Proof. split; [reflexivity|lia]. Qed.

(** ** The role requests *)

Lemma union_append_disjoint added : ∀ stored,
  NoDup added → (∀ x, x ∈ added → x ∉ stored) →
  union_append stored added = stored ++ added.
Proof.
  induction added as [|x added IH]; intros stored Hnd Hdis; simpl.
  - rewrite app_nil_r. reflexivity.
  - apply NoDup_cons in Hnd as [Hx Hnd].
    rewrite decide_False by (apply Hdis; apply list_elem_of_here).
    rewrite IH; [rewrite <- app_assoc; reflexivity|assumption|].
    intros y Hy Hin. apply elem_of_app in Hin as [Hin|Hin].
    + apply (Hdis y); [apply list_elem_of_further|]; assumption.
    + apply list_elem_of_singleton in Hin. congruence.
Qed.

Lemma addRole_submits w x stored :
  stored_roles w = Some stored →
  submits_roles (GuildMember.addRole x) w (stored ++ [x])
    (submitted_one w x (stored ++ [x])).
Proof.
  intros Hs. exists (S (length (heap w))).
  split; [apply addRole_run; assumption|]. split.
  - simpl. rewrite length_app. simpl. rewrite Nat.add_1_r. reflexivity.
  - simpl. rewrite <- (Nat.add_1_r (length (heap w))).
    replace (length (heap w) + 1)%nat with (length (heap w ++ [[x]]))
      by (rewrite length_app; reflexivity).
    apply lookup_fresh.
Qed.

(** C2 (as amended): [addRoles] submits the stored list followed by every
    requested addition in argument order (the identifiers of a collection's
    roles, the elements of an array as given), whether or not an addition is
    already stored; [addRole(x)] submits what [addRoles([x])] does, the stored
    list followed by [x].  The list submitted is the union that keeps one copy
    of each identifier when the additions are distinct and none is stored. *)
Theorem addRoles_appends w arg stored added :
  stored_roles w = Some stored →
  additions w arg = Some added →
  (∃ w', submits_roles (GuildMember.addRoles arg) w (stored ++ added) w')
  ∧ (∀ x, ∃ w', submits_roles (GuildMember.addRole x) w (stored ++ [x]) w')
  ∧ (NoDup added → (∀ x, x ∈ added → x ∉ stored) →
     stored ++ added = union_append stored added).
Proof.
  intros Hs Ha. split; [|split].
  - eexists. apply submitted_submits. apply addRoles_run; assumption.
  - intros x. eexists. apply addRole_submits. assumption.
  - intros Hnd Hdis. symmetry. apply union_append_disjoint; assumption.
Qed.

Lemma addRoles_appends_witness :
  ∃ w', submits_roles (GuildMember.addRoles (RArray 1%nat))
          (sample_world sample_guild [[IStr "R1"]; [IStr "A"; IStr "B"]])
          [IStr "R1"; IStr "A"; IStr "B"] w'.
Proof.
  exact (proj1 (addRoles_appends
                  (sample_world sample_guild [[IStr "R1"]; [IStr "A"; IStr "B"]])
                  (RArray 1%nat) [IStr "R1"] [IStr "A"; IStr "B"] eq_refl eq_refl)).
Defined.

(** C2 (as stated) fails: with A stored, [addRoles(["A"])] submits A twice,
    where the union of the stored list and the addition holds it once. *)
Lemma addRoles_duplicates :
  submits_roles (GuildMember.addRoles (RArray 1%nat))
    (sample_world sample_guild [[IStr "A"]; [IStr "A"]])
    [IStr "A"; IStr "A"]
    (submitted (sample_world sample_guild [[IStr "A"]; [IStr "A"]])
       [IStr "A"; IStr "A"])
  ∧ union_append [IStr "A"] [IStr "A"] = [IStr "A"]
  ∧ ¬ NoDup [IStr "A"; IStr "A"].
Proof.
  split; [|split].
  - apply submitted_submits. reflexivity.
  - reflexivity.
  - intros Hnd. apply NoDup_cons in Hnd as [Hn _].
    apply Hn. apply list_elem_of_here.
Qed.

Lemma forallb_is_id_app (a b : list Item) :
  forallb is_id (a ++ b) = forallb is_id a && forallb is_id b.
Proof. apply forallb_app. Qed.

(** C3 (as amended): [setRoles] hands its argument to the REST method as it
    received it, a collection of role objects or the very array it was given,
    with nothing normalized.  [addRoles] turns the roles of a collection into
    their identifiers and appends the elements of an array as given, so that
    what it submits consists of bare identifiers exactly when the stored list
    does and the argument is a collection or an array of bare identifiers. *)
Theorem setRoles_passes_argument w arg stored added :
  stored_roles w = Some stored →
  additions w arg = Some added →
  GuildMember.setRoles arg w
  = Some (tt, sent w (UpdateGuildMember (mkEdit None None None (Some arg) None)))
  ∧ ∃ w', submits_roles (GuildMember.addRoles arg) w (stored ++ added) w'
          ∧ forallb is_id (stored ++ added)
            = forallb is_id stored
              && match arg with
                 | RCollection _ => true
                 | RArray _ => forallb is_id added
                 end.
Proof.
  intros Hs Ha. split; [reflexivity|].
  eexists. split; [apply submitted_submits; apply addRoles_run; assumption|].
  rewrite forallb_is_id_app. f_equal.
  destruct arg as [c|a]; [|reflexivity].
  simpl in Ha. injection Ha as <-.
  induction (Collection.values c) as [|r rs IH]; [reflexivity|exact IH].
Qed.

Lemma setRoles_passes_argument_witness :
  GuildMember.setRoles (RArray 1%nat)
    (sample_world sample_guild [[IStr "R1"]; [IStr "A"]])
  = Some (tt, sent (sample_world sample_guild [[IStr "R1"]; [IStr "A"]])
                (UpdateGuildMember
                   (mkEdit None None None (Some (RArray 1%nat)) None))).
Proof.
  exact (proj1 (setRoles_passes_argument
                  (sample_world sample_guild [[IStr "R1"]; [IStr "A"]])
                  (RArray 1%nat) [IStr "R1"] [IStr "A"] eq_refl eq_refl)).
Defined.

(** C3 (as stated) fails: given an array that holds a role object,
    [setRoles] submits that array and [addRoles] submits the stored list
    followed by the role object; neither list consists of bare identifiers. *)
Lemma role_objects_submitted :
  let w := sample_world sample_guild [[IStr "R2"]; [IRole role1]] in
  GuildMember.setRoles (RArray 1%nat) w
  = Some (tt, sent w (roles_update 1%nat))
  ∧ heap (sent w (roles_update 1%nat)) !! 1%nat = Some [IRole role1]
  ∧ forallb is_id [IRole role1] = false
  ∧ submits_roles (GuildMember.addRoles (RArray 1%nat)) w
      [IStr "R2"; IRole role1] (submitted w [IStr "R2"; IRole role1])
  ∧ forallb is_id [IStr "R2"; IRole role1] = false.
Proof.
  intros w. repeat (split; [reflexivity|]). split; [|reflexivity].
  apply submitted_submits. reflexivity.
Qed.

Lemma removeRoles_submits w arg stored keys :
  stored_roles w = Some stored →
  requested w arg = Some keys →
  submits_roles (GuildMember.removeRoles arg) w
    (fold_left (λ a k, remove_first k a) keys stored)
    (submitted w (fold_left (λ a k, remove_first k a) keys stored)).
Proof.
  intros Hs Hk. apply submitted_submits. apply removeRoles_run; assumption.
Qed.

(** *** Removal from a list without duplicates *)

Lemma filter_keeps_all (P : Item → Prop) `{∀ x, Decision (P x)} (a : list Item) :
  (∀ x, x ∈ a → P x) → filter P a = a.
Proof.
  induction a as [|x a IH]; intros Hall; [reflexivity|].
  rewrite filter_cons_True by (apply Hall; apply list_elem_of_here).
  rewrite IH; [reflexivity|].
  intros y Hy. apply Hall. apply list_elem_of_further. assumption.
Qed.

Lemma remove_first_filter k a :
  NoDup a → remove_first k a = filter (λ x, x ≠ IStr k) a.
Proof.
  induction a as [|x a IH]; intros Hnd; [reflexivity|].
  apply NoDup_cons in Hnd as [Hx Hnd]. simpl.
  destruct (decide (x = IStr k)) as [->|Hne].
  - rewrite filter_cons_False by (intros H; apply H; reflexivity).
    symmetry. apply filter_keeps_all.
    intros y Hy ->. contradiction.
  - rewrite filter_cons_True by assumption. rewrite IH by assumption.
    reflexivity.
Qed.

Lemma NoDup_filter_items (P : Item → Prop) `{∀ x, Decision (P x)} (a : list Item) :
  NoDup a → NoDup (filter P a).
Proof. apply NoDup_filter. Qed.

Lemma remove_all_filter keys : ∀ a,
  NoDup a →
  fold_left (λ a k, remove_first k a) keys a
  = filter (λ x, x ∉ map IStr keys) a.
Proof.
  induction keys as [|k keys IH]; intros a Hnd; simpl.
  - symmetry. apply filter_keeps_all. intros x _. apply not_elem_of_nil.
  - rewrite remove_first_filter by assumption.
    rewrite IH by (apply NoDup_filter_items; assumption).
    rewrite list_filter_filter. apply list_filter_iff.
    intros x. rewrite not_elem_of_cons. tauto.
Qed.

Lemma add_then_remove_run w stored a b data :
  stored_roles w = Some stored →
  a ≠ b → IStr a ∉ stored →
  let w1 := submitted (put_heap (heap w ++ [[IStr a; IStr b]]) w)
              (stored ++ [IStr a; IStr b]) in
  let w2 := mkWorld (heap w1 ++ [[IStr a]]) (guild w)
              (mkMember (Some (Data.user data)) (S (length (heap w)))
                 (Some (Data.deaf data)) (Some (Data.mute data))
                 (Some (Data.self_mute data)) (Some (Data.self_deaf data))
                 (Data.session_id data) (Data.channel_id data)
                 (speaking (this w)) (Data.nick data)
                 (Some (DateParse.getTime (engine w) (Data.joined_at data))))
              (rest w1) (engine w) in
  add_then_remove a b data w = Some (tt, submitted w2 (stored ++ [IStr b])).
Proof.
  intros Hs Hab Ha w1 w2. unfold add_then_remove.
  rewrite (bind_run _ _ _ (length (heap w))
             (put_heap (heap w ++ [[IStr a; IStr b]]) w) eq_refl).
  assert (Hadd : GuildMember.addRoles (RArray (length (heap w)))
                   (put_heap (heap w ++ [[IStr a; IStr b]]) w) = Some (tt, w1)).
  { apply addRoles_run.
    - rewrite stored_roles_alloc by (rewrite Hs; eauto). assumption.
    - simpl. apply lookup_fresh. }
  rewrite (bind_run _ _ _ _ _ Hadd).
  assert (Hlast : last_submitted w1 = Some (S (length (heap w)), w1)).
  { unfold last_submitted, w1, submitted. cbn [rest put_heap heap].
    rewrite last_snoc. unfold roles_update. rewrite length_app.
    simpl length. rewrite Nat.add_1_r. reflexivity. }
  rewrite (bind_run _ _ _ _ _ Hlast).
  rewrite (bind_run _ _ _ _ _ (setup_run _ _)).
  erewrite bind_run; [|reflexivity].
  change (S (length (heap w1))) with (S (length (heap w1))).
  match goal with |- GuildMember.removeRoles _ ?w' = _ =>
    change w' with (put_heap (heap w2) w2) end.
  rewrite put_heap_same.
  replace (length (heap w1)) with (length (heap w2) - 1)%nat
    by (unfold w2; cbn [heap]; rewrite length_app; simpl; lia).
  rewrite (removeRoles_run w2 _ (stored ++ [IStr a; IStr b]) [a]).
  - simpl fold_left.
    change (stored ++ [IStr a; IStr b]) with (stored ++ IStr a :: [IStr b]).
    rewrite remove_first_split by assumption. reflexivity.
  - unfold stored_roles, w2. cbn [this _roles heap].
    apply lookup_app_l_Some. unfold w1, submitted. cbn [heap put_heap].
    replace (S (length (heap w)))
      with (length (heap w ++ [[IStr a; IStr b]]))
      by (rewrite length_app; simpl; lia).
    apply lookup_fresh.
  - unfold requested, w2. cbn [heap].
    replace (length (heap w1 ++ [[IStr a]]) - 1)%nat with (length (heap w1))
      by (rewrite length_app; simpl; lia).
    rewrite lookup_fresh. reflexivity.
Qed.

(** C7: from a stored list without duplicates, [removeRoles] submits the
    stored list without the requested identifiers (role objects counted by
    their [id]), the remaining entries in their order; a requested identifier
    that is not stored changes nothing and is no error.  And from a stored
    list with neither A nor B, [addRoles([A, B])], a refresh with the list
    submitted, and [removeRoles([A])] end by submitting the stored list
    followed by B, without A. *)
Theorem removeRoles_minus :
  (∀ w arg stored keys,
     stored_roles w = Some stored →
     NoDup stored →
     requested w arg = Some keys →
     ∃ w', submits_roles (GuildMember.removeRoles arg) w
             (filter (λ x, x ∉ map IStr keys) stored) w')
  ∧ (∀ w stored a b data,
       stored_roles w = Some stored →
       a ≠ b → IStr a ∉ stored → IStr b ∉ stored →
       ∃ w' l, add_then_remove a b data w = Some (tt, w')
               ∧ last (rest w') = Some (roles_update l)
               ∧ heap w' !! l = Some (stored ++ [IStr b])
               ∧ IStr b ∈ stored ++ [IStr b]
               ∧ IStr a ∉ stored ++ [IStr b]).
Proof.
  split.
  - intros w arg stored keys Hs Hnd Hk. eexists.
    rewrite <- remove_all_filter by assumption.
    apply removeRoles_submits; assumption.
  - intros w stored a b data Hs Hab Ha Hb.
    do 2 eexists.
    split; [exact (add_then_remove_run w stored a b data Hs Hab Ha)|].
    split; [|split; [|split]].
    + unfold submitted. cbn [rest]. apply last_snoc.
    + unfold submitted. cbn [heap]. apply lookup_fresh.
    + apply elem_of_app. right. apply list_elem_of_here.
    + intros Hin. apply elem_of_app in Hin as [Hin|Hin]; [contradiction|].
      apply list_elem_of_singleton in Hin. congruence.
Qed.

Lemma removeRoles_minus_witness :
  (∃ w', submits_roles (GuildMember.removeRoles (RArray 1%nat))
           (sample_world sample_guild
              [[IStr "A"; IStr "B"; IStr "C"]; [IRole (Role.mk "A" "a"); IStr "Z"]])
           [IStr "B"; IStr "C"] w')
  ∧ (∃ w' l, add_then_remove "A" "B" (sample_data 0%nat "2021-01-01T00:00:00Z")
               (sample_world sample_guild [[IStr "R1"]]) = Some (tt, w')
             ∧ last (rest w') = Some (roles_update l)
             ∧ heap w' !! l = Some [IStr "R1"; IStr "B"]).
Proof.
  destruct removeRoles_minus as [Hminus Hscenario]. split.
  - apply (Hminus (sample_world sample_guild
                     [[IStr "A"; IStr "B"; IStr "C"];
                      [IRole (Role.mk "A" "a"); IStr "Z"]])
             (RArray 1%nat) [IStr "A"; IStr "B"; IStr "C"] ["A"; "Z"]).
    + reflexivity.
    + repeat (apply NoDup_cons; split;
              [intros H; repeat (apply elem_of_cons in H as [H|H];
                                 [discriminate|]);
               apply elem_of_nil in H; exact H|]).
      apply NoDup_nil. exact I.
    + reflexivity.
  - destruct (Hscenario (sample_world sample_guild [[IStr "R1"]]) [IStr "R1"]
                "A" "B" (sample_data 0%nat "2021-01-01T00:00:00Z"))
      as (w' & l & Hrun & Hlast & Hheap & _).
    + reflexivity.
    + discriminate.
    + intros H. apply list_elem_of_singleton in H. discriminate.
    + intros H. apply list_elem_of_singleton in H. discriminate.
    + exists w', l. repeat split; assumption.
Defined.

(** *** Removal counts occurrences *)

Lemma occurrences_cons {A : Type} `{EqDecision A} (x y : A) (l : list A) :
  occurrences x (y :: l)
  = ((if decide (y = x) then 1 else 0) + occurrences x l)%nat.
Proof.
  unfold occurrences. rewrite filter_cons.
  destruct (decide (y = x)); reflexivity.
Qed.

Lemma occurrences_remove_first k k' a :
  occurrences (IStr k) (remove_first k' a)
  = (occurrences (IStr k) a - (if decide (k' = k) then 1 else 0))%nat.
Proof.
  induction a as [|x a IH]; simpl.
  - destruct (decide (k' = k)); reflexivity.
  - destruct (decide (x = IStr k')) as [->|Hne].
    + rewrite occurrences_cons.
      destruct (decide (k' = k)) as [->|Hkk].
      * rewrite decide_True by reflexivity. lia.
      * rewrite decide_False by congruence. lia.
    + rewrite !occurrences_cons, IH.
      destruct (decide (k' = k)) as [->|Hkk]; [|lia].
      rewrite decide_False by assumption. lia.
Qed.

Lemma occurrences_remove_all k keys : ∀ a,
  occurrences (IStr k) (fold_left (λ a k, remove_first k a) keys a)
  = (occurrences (IStr k) a - occurrences k keys)%nat.
Proof.
  induction keys as [|k' keys IH]; intros a; simpl.
  - unfold occurrences at 3. simpl. lia.
  - rewrite IH, occurrences_remove_first, occurrences_cons. lia.
Qed.

(** C10: [removeRoles] removes, for each entry of the request, the first
    occurrence still present of its identifier and no other.  So the list it
    submits holds each identifier as many times as the stored list did, less
    the number of request entries naming it; and after a single request for an
    identifier, the entries behind its first occurrence, further copies of it
    included, are all still there. *)
Theorem removeRoles_first_occurrence w arg stored keys :
  stored_roles w = Some stored →
  requested w arg = Some keys →
  ∃ content w',
    submits_roles (GuildMember.removeRoles arg) w content w'
    ∧ content = fold_left (λ a k, remove_first k a) keys stored
    ∧ (∀ k, occurrences (IStr k) content
            = (occurrences (IStr k) stored - occurrences k keys)%nat)
    ∧ (∀ k before behind,
         keys = [k] → stored = before ++ IStr k :: behind →
         IStr k ∉ before → content = before ++ behind).
Proof.
  intros Hs Hk. do 2 eexists.
  split; [apply removeRoles_submits; eassumption|].
  split; [reflexivity|]. split.
  - intros k. apply occurrences_remove_all.
  - intros k before behind -> -> Hn. simpl.
    apply remove_first_split. assumption.
Qed.

Lemma removeRoles_first_occurrence_witness :
  ∃ content w',
    submits_roles (GuildMember.removeRoles (RArray 1%nat))
      (sample_world sample_guild [[IStr "B"; IStr "A"; IStr "C"; IStr "A"]; [IStr "A"]])
      content w'
    ∧ content = [IStr "B"; IStr "C"; IStr "A"]
    ∧ occurrences (IStr "A") content = 1%nat.
Proof.
  destruct (removeRoles_first_occurrence
              (sample_world sample_guild
                 [[IStr "B"; IStr "A"; IStr "C"; IStr "A"]; [IStr "A"]])
              (RArray 1%nat) [IStr "B"; IStr "A"; IStr "C"; IStr "A"] ["A"]
              eq_refl eq_refl)
    as (content & w' & Hrun & Hc & Hocc & _).
  exists content, w'. split; [exact Hrun|]. split; [exact Hc|].
  rewrite Hocc. reflexivity.
Defined.

(** ** Mutations leave the member alone *)

Lemma additions_ok w arg :
  match arg with RArray a => is_Some (heap w !! a) | RCollection _ => True end →
  is_Some (additions w arg).
Proof. destruct arg as [c|a]; simpl; [eauto|trivial]. Qed.

Lemma requested_ok w arg :
  match arg with RArray a => is_Some (heap w !! a) | RCollection _ => True end →
  is_Some (requested w arg).
Proof.
  destruct arg as [c|a]; simpl; [eauto|].
  intros [items ->]. simpl. eauto.
Qed.

(** C6: each mutation operation, run in a world where the arrays it reads
    exist, returns having sent exactly one request and having left the member's
    fields, the guild and every array that existed before the call, the
    stored role list among them, as they were; all it adds to the heap are
    arrays of its own. *)
Theorem mutation_frame op w :
  refs_ok w op →
  ∃ w' call fresh,
    run_mutation op w = Some (tt, w')
    ∧ this w' = this w
    ∧ guild w' = guild w
    ∧ heap w' = heap w ++ fresh
    ∧ stored_roles w' = stored_roles w
    ∧ rest w' = rest w ++ [call].
Proof.
  intros [[stored Hs] Harg].
  assert (Hkeep : ∀ fresh, (heap w ++ fresh) !! _roles (this w) = stored_roles w).
  { intros fresh. rewrite Hs. apply lookup_app_l_Some. exact Hs. }
  destruct op as [b|b|c|n|r|x|r|x|r| |d]; cbn [run_mutation].
  1-5, 10-11:
    (do 2 eexists; exists []; split; [reflexivity|];
     rewrite app_nil_r; repeat split).
  - do 2 eexists. exists [[x]; stored ++ [x]].
    split; [apply addRole_run; exact Hs|].
    unfold submitted_one, submitted, stored_roles. cbn [this guild heap rest put_heap].
    rewrite <- app_assoc. repeat split. apply Hkeep.
  - destruct (additions_ok w r Harg) as [added Ha].
    do 2 eexists. exists [stored ++ added].
    split; [apply addRoles_run; eassumption|].
    unfold submitted, stored_roles. cbn [this guild heap rest].
    repeat split. apply Hkeep.
  - do 2 eexists. exists [[x]; remove_first (resolve_id x) stored].
    split; [apply removeRole_run; exact Hs|].
    unfold submitted_one, submitted, stored_roles. cbn [this guild heap rest put_heap].
    rewrite <- app_assoc. repeat split. apply Hkeep.
  - destruct (requested_ok w r Harg) as [keys Hk].
    do 2 eexists. exists [fold_left (λ a k, remove_first k a) keys stored].
    split; [apply removeRoles_run; eassumption|].
    unfold submitted, stored_roles. cbn [this guild heap rest].
    repeat split. apply Hkeep.
Qed.

Lemma mutation_frame_witness :
  ∃ w' call fresh,
    run_mutation (RemoveRoles (RArray 1%nat))
      (sample_world sample_guild [[IStr "A"; IStr "B"]; [IStr "A"]])
    = Some (tt, w')
    ∧ this w' = blank 0%nat
    ∧ guild w' = sample_guild
    ∧ heap w' = [[IStr "A"; IStr "B"]; [IStr "A"]] ++ fresh
    ∧ stored_roles w' = Some [IStr "A"; IStr "B"]
    ∧ rest w' = [] ++ [call].
Proof.
  apply (mutation_frame (RemoveRoles (RArray 1%nat))
           (sample_world sample_guild [[IStr "A"; IStr "B"]; [IStr "A"]])).
  split; simpl; eauto.
Defined.

(** ** Worked examples *)

Example getTime_utc :
  DateParse.getTime no_fallback "2021-01-01T00:00:00Z" = Ms 1609459200000.
Proof. vm_compute. reflexivity. Qed.

Example getTime_fraction_offset :
  DateParse.getTime no_fallback "2016-08-20T12:34:56.789+02:00" = Ms 1471689296789.
Proof. vm_compute. reflexivity. Qed.

Example getTime_date_only :
  DateParse.getTime no_fallback "2021-01-01" = Ms 1609459200000
  ∧ DateParse.getTime no_fallback "2021-02" = Ms 1612137600000
  ∧ DateParse.getTime no_fallback "2021" = Ms 1609459200000.
Proof. vm_compute. repeat split. Qed.

Example getTime_end_of_day :
  DateParse.getTime no_fallback "2021-01-01T24:00:00Z" = Ms 1609545600000
  ∧ DateParse.getTime no_fallback "2021-01-01T00:00Z" = Ms 1609459200000
  ∧ DateParse.getTime no_fallback "+002021-01-01T00:00:00.000-00:30"
    = Ms 1609461000000.
Proof. vm_compute. repeat split. Qed.

Example getTime_range :
  DateParse.getTime no_fallback "+275760-09-13T00:00:00.000Z"
  = Ms 8640000000000000
  ∧ DateParse.getTime no_fallback "+275760-09-13T00:00:00.001Z" = NaN
  ∧ DateParse.getTime no_fallback "-271821-04-20T00:00:00Z"
    = Ms (-8640000000000000).
Proof. vm_compute. repeat split. Qed.

(** Outside the portable strings the engine decides: a date-time without
    offset is local time, and other spellings are the engine's own. *)
Example getTime_engine (e : string → TimeValue) :
  DateParse.getTime e "2021-01-01T00:00:00" = e "2021-01-01T00:00:00"
  ∧ DateParse.getTime e "2021-02-30" = e "2021-02-30"
  ∧ DateParse.getTime e "2016-08-20T12:34:56.789000+00:00"
    = e "2016-08-20T12:34:56.789000+00:00"
  ∧ DateParse.getTime e "yesterday" = e "yesterday".
Proof. repeat split. Qed.

(** A member built from data with roles R1 and R2, nickname Al and a join
    date of 2021-01-01, in the guild G whose registry holds G and R1: the
    view is G then R1. *)
Example roles_of_sample_member :
  fst <$> (GuildMember.constructor
             (Some (sample_data 0%nat "2021-01-01T00:00:00Z"));;
           view <- GuildMember.roles;;
           joined <- GuildMember.joinDate;;
           m <- get_this;;
           ret (Collection.keys view, joined, nickname m))
          (sample_world sample_guild [[IStr "R1"; IStr "R2"]])
  = Some (["G"; "R1"], Ms 1609459200000, Some "Al").
Proof. vm_compute. reflexivity. Qed.

Example mute_truth_table :
  js_or (Some false) (Some false) = Some false
  ∧ js_or (Some false) (Some true) = Some true
  ∧ js_or (Some true) (Some false) = Some true
  ∧ js_or (Some true) (Some true) = Some true.
Proof. repeat split. Qed.

(** * Further properties *)

(** ** The shape of the view *)

Section collection_keys.
Context {V : Type}.
Implicit Types (c : Collection.t V) (k : string) (v : V).

Lemma get_None_keys c k : Collection.get c k = None ↔ k ∉ Collection.keys c.
Proof.
  unfold Collection.keys. induction c as [|[k0 v0] c IH]; simpl.
  - split; [intros _; apply not_elem_of_nil|reflexivity].
  - rewrite not_elem_of_cons. destruct (String.eqb_spec k0 k) as [->|Hne].
    + split; [discriminate|intros [Hk _]; congruence].
    + rewrite IH. split; [intros H; split; congruence|intros [_ H]; exact H].
Qed.

Lemma set_fresh c k v :
  k ∉ Collection.keys c → Collection.set c k v = c ++ [(k, v)].
Proof.
  unfold Collection.keys. induction c as [|[k0 v0] c IH]; simpl; intros Hk.
  - reflexivity.
  - apply not_elem_of_cons in Hk as [Hne Hk].
    destruct (String.eqb_spec k0 k); [congruence|].
    rewrite IH by assumption. reflexivity.
Qed.

Lemma keys_set_present c k v :
  k ∈ Collection.keys c →
  Collection.keys (Collection.set c k v) = Collection.keys c.
Proof.
  unfold Collection.keys. induction c as [|[k0 v0] c IH]; simpl; intros Hk.
  - apply elem_of_nil in Hk. contradiction.
  - destruct (String.eqb_spec k0 k) as [->|Hne]; [reflexivity|].
    apply elem_of_cons in Hk as [Hk|Hk]; [congruence|].
    simpl. rewrite IH by assumption. reflexivity.
Qed.

Lemma keys_set c k v :
  Collection.keys (Collection.set c k v)
  = if decide (k ∈ Collection.keys c) then Collection.keys c
    else Collection.keys c ++ [k].
Proof.
  case_decide as Hk.
  - apply keys_set_present. assumption.
  - rewrite set_fresh by assumption. unfold Collection.keys.
    rewrite map_app. reflexivity.
Qed.

Lemma NoDup_keys_set c k v :
  NoDup (Collection.keys c) → NoDup (Collection.keys (Collection.set c k v)).
Proof.
  intros Hnd. rewrite keys_set. case_decide as Hk; [assumption|].
  apply NoDup_app. split; [assumption|]. split.
  - intros x Hx Hin. apply list_elem_of_singleton in Hin. congruence.
  - apply NoDup_singleton.
Qed.

Lemma length_set c k v :
  (length (Collection.set c k v) ≤ S (length c))%nat.
Proof.
  induction c as [|[k0 v0] c IH]; simpl; [lia|].
  destruct (String.eqb k0 k); simpl; lia.
Qed.
End collection_keys.

Lemma roles_inv w view w' :
  GuildMember.roles w = Some (view, w') →
  ∃ stored, stored_roles w = Some stored
            ∧ view = GuildMember.roles_of (guild_roles (guild w))
                       (guild_id (guild w)) stored
            ∧ w' = w.
Proof.
  unfold stored_roles. intros Hrun.
  destruct (heap w !! _roles (this w)) as [stored|] eqn:Hs.
  - rewrite (roles_run w stored Hs) in Hrun. injection Hrun as <- <-.
    exists stored. repeat split.
  - unfold GuildMember.roles, bind, get_guild, get_this, read in Hrun.
    rewrite Hs in Hrun. discriminate.
Qed.

Section view_shape.
Variable reg : Collection.t Role.t.

Lemma from_registry_step (looked : string → Prop) c x :
  (∀ s, x = IStr s → looked s) →
  from_registry reg looked c →
  from_registry reg looked (GuildMember.roles_step reg c x).
Proof.
  intros Hx Hc. unfold GuildMember.roles_step.
  destruct x as [r0|s]; simpl; [exact Hc|].
  destruct (Collection.get reg s) as [role|] eqn:E; [|exact Hc].
  intros k r. rewrite get_set.
  destruct (String.eqb_spec (Role.id role) k) as [<-|Hne]; [|apply Hc].
  intros [= <-]. split; [reflexivity|]. exists s. split; [exact E|].
  apply Hx. reflexivity.
Qed.

Lemma from_registry_loop (looked : string → Prop) stored : ∀ c,
  (∀ s, IStr s ∈ stored → looked s) →
  from_registry reg looked c →
  from_registry reg looked (fold_left (GuildMember.roles_step reg) stored c).
Proof.
  induction stored as [|x stored IH]; intros c Hl Hc; simpl; [exact Hc|].
  apply IH.
  - intros s Hs. apply Hl. apply list_elem_of_further. assumption.
  - apply from_registry_step; [|assumption].
    intros s ->. apply Hl. apply list_elem_of_here.
Qed.

Lemma from_registry_roles_of gid stored :
  from_registry reg (λ k, k = gid ∨ IStr k ∈ stored)
    (GuildMember.roles_of reg gid stored).
Proof.
  unfold GuildMember.roles_of. apply from_registry_loop.
  - intros s Hs. right. assumption.
  - destruct (Collection.get reg gid) as [r0|] eqn:E;
      cbn [Collection.set Collection.empty]; intros k r;
      cbn [Collection.get].
    + destruct (String.eqb_spec (Role.id r0) k) as [<-|]; [|discriminate].
      intros [= <-]. split; [reflexivity|]. exists gid. split; [exact E|].
      left. reflexivity.
    + discriminate.
Qed.

Lemma NoDup_keys_loop stored : ∀ c,
  NoDup (Collection.keys c) →
  NoDup (Collection.keys (fold_left (GuildMember.roles_step reg) stored c)).
Proof.
  induction stored as [|x stored IH]; intros c Hc; simpl; [exact Hc|].
  apply IH. unfold GuildMember.roles_step.
  destruct (get_item reg x); [apply NoDup_keys_set|]; assumption.
Qed.

Lemma length_loop stored : ∀ c,
  (length (fold_left (GuildMember.roles_step reg) stored c)
   ≤ length c + length stored)%nat.
Proof.
  induction stored as [|x stored IH]; intros c; simpl; [lia|].
  etransitivity; [apply IH|]. unfold GuildMember.roles_step.
  destruct (get_item reg x) as [role|]; [|lia].
  pose proof (length_set c (Role.id role) role). lia.
Qed.

Hypothesis Hkeyed : keyed_by_id reg.

Lemma keys_registered_entries stored k :
  k ∈ Collection.keys (registered_entries reg stored) → IStr k ∈ stored.
Proof.
  unfold Collection.keys.
  induction stored as [|x stored IH]; simpl; intros Hk.
  - apply elem_of_nil in Hk. contradiction.
  - destruct x as [r|s]; [apply list_elem_of_further, IH, Hk|].
    destruct (Collection.get reg s) as [r|].
    + simpl in Hk. apply elem_of_cons in Hk as [->|Hk].
      * apply list_elem_of_here.
      * apply list_elem_of_further, IH, Hk.
    + apply list_elem_of_further, IH, Hk.
Qed.

Lemma loop_appends stored : ∀ c,
  NoDup stored →
  (∀ s, IStr s ∈ stored → s ∉ Collection.keys c) →
  fold_left (GuildMember.roles_step reg) stored c
  = c ++ registered_entries reg stored.
Proof.
  induction stored as [|x stored IH]; intros c Hnd Hfresh; simpl.
  - rewrite app_nil_r. reflexivity.
  - apply NoDup_cons in Hnd as [Hx Hnd].
    assert (Hrest : ∀ s, IStr s ∈ stored → s ∉ Collection.keys c).
    { intros s Hs. apply Hfresh. apply list_elem_of_further. assumption. }
    destruct x as [r|s]; unfold GuildMember.roles_step; simpl.
    + apply IH; assumption.
    + destruct (Collection.get reg s) as [r|] eqn:E; [|apply IH; assumption].
      rewrite (Hkeyed _ _ E).
      rewrite set_fresh by (apply Hfresh; apply list_elem_of_here).
      rewrite IH; [rewrite <- app_assoc; reflexivity|assumption|].
      intros s' Hs'. unfold Collection.keys. rewrite map_app. simpl.
      intros Hin. apply elem_of_app in Hin as [Hin|Hin].
      * exact (Hrest s' Hs' Hin).
      * apply list_elem_of_singleton in Hin. congruence.
Qed.
End view_shape.

(** X1: for a registry keyed by role identifier and a stored list without
    duplicates that does not hold the guild's own identifier, the view is, in
    this order, the default role if it is registered, then the registry
    entries of the stored identifiers in stored order, the unregistered ones
    being skipped. *)
Theorem roles_entries_in_order w stored :
  stored_roles w = Some stored →
  keyed_by_id (guild_roles (guild w)) →
  NoDup stored →
  IStr (guild_id (guild w)) ∉ stored →
  GuildMember.roles w
  = Some (default_entry (guild_roles (guild w)) (guild_id (guild w))
          ++ registered_entries (guild_roles (guild w)) stored, w).
Proof.
  intros Hs Hk Hnd Hgid. rewrite (roles_run w stored Hs). do 2 f_equal.
  unfold GuildMember.roles_of, default_entry.
  destruct (Collection.get (guild_roles (guild w)) (guild_id (guild w)))
    as [r|] eqn:E; cbn [Collection.set Collection.empty].
  - rewrite (Hk _ _ E). apply loop_appends; [assumption..|].
    intros s Hs' Hin. unfold Collection.keys in Hin. cbn [map fst] in Hin.
    apply list_elem_of_singleton in Hin. subst s. contradiction.
  - apply loop_appends; [assumption..|].
    intros s _. apply not_elem_of_nil.
Qed.

Lemma roles_entries_in_order_witness :
  GuildMember.roles
    (sample_world sample_guild [[IStr "R2"; IStr "R1"; IRole everyone]])
  = Some ([("G", everyone); ("R1", role1)],
          sample_world sample_guild [[IStr "R2"; IStr "R1"; IRole everyone]]).
Proof.
  apply (roles_entries_in_order
           (sample_world sample_guild [[IStr "R2"; IStr "R1"; IRole everyone]])
           [IStr "R2"; IStr "R1"; IRole everyone] eq_refl sample_guild_keyed).
  - repeat (apply NoDup_cons; split;
            [intros H; repeat (apply elem_of_cons in H as [H|H];
                               [discriminate|]);
             apply elem_of_nil in H; exact H|]).
    apply NoDup_nil. exact I.
  - intros H. repeat (apply elem_of_cons in H as [H|H]; [discriminate|]).
    apply elem_of_nil in H. exact H.
Defined.

(** X2: whatever the registry and the stored list hold, every entry of the
    view sits under the [id] of its role, and that role is one the registry
    holds under the guild's identifier or under a stored identifier: the view
    never holds a role the registry lacks, and it is keyed by role identifier
    even where the registry is not. *)
Theorem roles_entries_from_registry w view w' k r :
  GuildMember.roles w = Some (view, w') →
  Collection.get view k = Some r →
  Role.id r = k
  ∧ ∃ k' stored,
      stored_roles w = Some stored
      ∧ Collection.get (guild_roles (guild w)) k' = Some r
      ∧ (k' = guild_id (guild w) ∨ IStr k' ∈ stored).
Proof.
  intros Hrun Hget. apply roles_inv in Hrun as (stored & Hs & -> & _).
  destruct (from_registry_roles_of _ _ _ _ _ Hget) as (Hid & k' & Hk' & Hl).
  split; [exact Hid|]. exists k', stored. repeat split; assumption.
Qed.

(** A registry that is not keyed by identifier: the role R1 sits under the
    key K. *)
Lemma roles_entries_from_registry_witness :
  Role.id role1 = "R1"
  ∧ ∃ k' stored,
      stored_roles (sample_world (mkGuild "G" [("K", role1)] []) [[IStr "K"]])
      = Some stored
      ∧ Collection.get [("K", role1)] k' = Some role1
      ∧ (k' = "G" ∨ IStr k' ∈ stored).
Proof.
  exact (roles_entries_from_registry
           (sample_world (mkGuild "G" [("K", role1)] []) [[IStr "K"]])
           [("R1", role1)]
           (sample_world (mkGuild "G" [("K", role1)] []) [[IStr "K"]])
           "R1" role1 eq_refl eq_refl).
Defined.

(** X3: the view never lists an identifier twice, also when the stored list
    holds duplicates or the guild's own identifier, and it has at most one
    entry more than the stored list has elements. *)
Theorem roles_no_duplicates w view w' :
  GuildMember.roles w = Some (view, w') →
  NoDup (Collection.keys view)
  ∧ ∃ stored, stored_roles w = Some stored
              ∧ (length view ≤ S (length stored))%nat.
Proof.
  intros Hrun. apply roles_inv in Hrun as (stored & Hs & -> & _).
  unfold GuildMember.roles_of. split.
  - apply NoDup_keys_loop.
    destruct (Collection.get _ _); [apply NoDup_singleton|apply NoDup_nil; exact I].
  - exists stored. split; [exact Hs|].
    etransitivity; [apply length_loop|].
    destruct (Collection.get _ _); simpl; lia.
Qed.

Lemma roles_no_duplicates_witness :
  NoDup ["G"; "R1"]
  ∧ ∃ stored,
      stored_roles (sample_world sample_guild [[IStr "R1"; IStr "G"; IStr "R1"]])
      = Some stored
      ∧ (2 ≤ S (length stored))%nat.
Proof.
  exact (roles_no_duplicates
           (sample_world sample_guild [[IStr "R1"; IStr "G"; IStr "R1"]])
           [("G", everyone); ("R1", role1)]
           (sample_world sample_guild [[IStr "R1"; IStr "G"; IStr "R1"]])
           eq_refl).
Defined.

(** ** What removal keeps *)

Lemma remove_first_sublist k a : remove_first k a `sublist_of` a.
Proof.
  induction a as [|x a IH]; simpl; [constructor|].
  destruct (decide (x = IStr k)).
  - apply sublist_cons. reflexivity.
  - apply sublist_skip. exact IH.
Qed.

Lemma remove_all_sublist keys : ∀ a,
  fold_left (λ a k, remove_first k a) keys a `sublist_of` a.
Proof.
  induction keys as [|k keys IH]; intros a; simpl; [reflexivity|].
  etransitivity; [apply IH|apply remove_first_sublist].
Qed.

Lemma length_remove_first k a :
  (length a ≤ S (length (remove_first k a)))%nat.
Proof.
  induction a as [|x a IH]; simpl; [lia|].
  destruct (decide (x = IStr k)); simpl; lia.
Qed.

Lemma length_remove_first_present k a :
  IStr k ∈ a → (length (remove_first k a) < length a)%nat.
Proof.
  induction a as [|x a IH]; intros Hin; simpl.
  - apply elem_of_nil in Hin. contradiction.
  - destruct (decide (x = IStr k)) as [->|Hne]; simpl; [lia|].
    apply elem_of_cons in Hin as [Hin|Hin]; [congruence|].
    specialize (IH Hin). lia.
Qed.

Lemma length_remove_all keys : ∀ a,
  (length a ≤ length (fold_left (λ a k, remove_first k a) keys a) + length keys)%nat.
Proof.
  induction keys as [|k keys IH]; intros a; simpl; [lia|].
  specialize (IH (remove_first k a)).
  pose proof (length_remove_first k a). lia.
Qed.

Lemma remove_all_unchanged keys : ∀ a,
  fold_left (λ a k, remove_first k a) keys a = a
  ↔ ∀ k, k ∈ keys → IStr k ∉ a.
Proof.
  induction keys as [|k keys IH]; intros a; simpl.
  - split; [intros _ k Hk; apply elem_of_nil in Hk; contradiction|reflexivity].
  - destruct (decide (IStr k ∈ a)) as [Hin|Hnin].
    + split.
      * intros Heq. exfalso.
        pose proof (sublist_length _ _ (remove_all_sublist keys (remove_first k a))).
        pose proof (length_remove_first_present k a Hin).
        rewrite Heq in *. lia.
      * intros Hall. exfalso. apply (Hall k); [apply list_elem_of_here|exact Hin].
    + rewrite remove_first_absent by assumption. rewrite IH. split.
      * intros Hall k' Hk'. apply elem_of_cons in Hk' as [->|Hk'];
          [assumption|apply Hall; assumption].
      * intros Hall k' Hk'. apply Hall. apply list_elem_of_further. assumption.
Qed.

(** X4: whatever the stored list holds, duplicates included, the list that
    [removeRoles] submits is the stored list with some entries left out, the
    others in their order, and it is shorter by at most the number of entries
    of the request. *)
Theorem removeRoles_sublist w arg stored keys :
  stored_roles w = Some stored →
  requested w arg = Some keys →
  ∃ content w',
    submits_roles (GuildMember.removeRoles arg) w content w'
    ∧ content `sublist_of` stored
    ∧ (length stored ≤ length content + length keys)%nat.
Proof.
  intros Hs Hk. do 2 eexists.
  split; [apply removeRoles_submits; eassumption|]. split.
  - apply remove_all_sublist.
  - apply length_remove_all.
Qed.

Lemma removeRoles_sublist_witness :
  ∃ content w',
    submits_roles (GuildMember.removeRoles (RCollection [("R1", role1)]))
      (sample_world sample_guild [[IStr "R1"; IStr "B"; IStr "R1"]]) content w'
    ∧ content `sublist_of` [IStr "R1"; IStr "B"; IStr "R1"]
    ∧ (3 ≤ length content + 1)%nat.
Proof.
  exact (removeRoles_sublist
           (sample_world sample_guild [[IStr "R1"; IStr "B"; IStr "R1"]])
           (RCollection [("R1", role1)]) [IStr "R1"; IStr "B"; IStr "R1"] ["R1"]
           eq_refl eq_refl).
Defined.

(** X5: [removeRoles] submits the stored list unchanged exactly when none of
    the requested identifiers is stored; this includes the empty request. *)
Theorem removeRoles_unchanged_iff w arg stored keys :
  stored_roles w = Some stored →
  requested w arg = Some keys →
  ∃ content w',
    submits_roles (GuildMember.removeRoles arg) w content w'
    ∧ (content = stored ↔ ∀ k, k ∈ keys → IStr k ∉ stored).
Proof.
  intros Hs Hk. do 2 eexists.
  split; [apply removeRoles_submits; eassumption|].
  apply remove_all_unchanged.
Qed.

Lemma removeRoles_unchanged_iff_witness :
  ∃ content w',
    submits_roles (GuildMember.removeRoles (RArray 1%nat))
      (sample_world sample_guild [[IStr "A"; IStr "B"]; []]) content w'
    ∧ (content = [IStr "A"; IStr "B"]
       ↔ ∀ k, k ∈ [] → IStr k ∉ [IStr "A"; IStr "B"]).
Proof.
  exact (removeRoles_unchanged_iff
           (sample_world sample_guild [[IStr "A"; IStr "B"]; []])
           (RArray 1%nat) [IStr "A"; IStr "B"] [] eq_refl eq_refl).
Defined.

Lemma submitted_one_submits m w x content :
  m w = Some (tt, submitted_one w x content) →
  submits_roles m w content (submitted_one w x content).
Proof.
  intros Hrun. exists (S (length (heap w))). split; [exact Hrun|]. split.
  - simpl. rewrite length_app. simpl. rewrite Nat.add_1_r. reflexivity.
  - simpl. rewrite <- (Nat.add_1_r (length (heap w))).
    replace (length (heap w) + 1)%nat with (length (heap w ++ [[x]]))
      by (rewrite length_app; reflexivity).
    apply lookup_fresh.
Qed.

(** X6: [removeRole] takes a role object and its identifier for the same
    request: either way it submits one list, which is the stored list when the
    identifier is not stored, and otherwise the stored list without the first
    entry that holds the identifier. *)
Theorem removeRole_object_or_id w stored r :
  stored_roles w = Some stored →
  ∃ content w1 w2,
    submits_roles (GuildMember.removeRole (IRole r)) w content w1
    ∧ submits_roles (GuildMember.removeRole (IStr (Role.id r))) w content w2
    ∧ (IStr (Role.id r) ∉ stored → content = stored)
    ∧ (∀ before behind,
         stored = before ++ IStr (Role.id r) :: behind →
         IStr (Role.id r) ∉ before → content = before ++ behind).
Proof.
  intros Hs. exists (remove_first (Role.id r) stored). do 2 eexists.
  split; [|split; [|split]].
  - apply submitted_one_submits.
    apply (removeRole_run w (IRole r) stored Hs).
  - apply submitted_one_submits.
    apply (removeRole_run w (IStr (Role.id r)) stored Hs).
  - apply remove_first_absent.
  - intros before behind -> Hn. apply remove_first_split. assumption.
Qed.

Lemma removeRole_object_or_id_witness :
  ∃ content w1 w2,
    submits_roles (GuildMember.removeRole (IRole role1))
      (sample_world sample_guild [[IStr "B"; IStr "R1"; IStr "C"]]) content w1
    ∧ submits_roles (GuildMember.removeRole (IStr "R1"))
        (sample_world sample_guild [[IStr "B"; IStr "R1"; IStr "C"]]) content w2
    ∧ content = [IStr "B"; IStr "C"].
Proof.
  destruct (removeRole_object_or_id
              (sample_world sample_guild [[IStr "B"; IStr "R1"; IStr "C"]])
              [IStr "B"; IStr "R1"; IStr "C"] role1 eq_refl)
    as (content & w1 & w2 & H1 & H2 & _ & Hsplit).
  exists content, w1, w2. split; [exact H1|]. split; [exact H2|].
  apply (Hsplit [IStr "B"] [IStr "C"] eq_refl).
  intros H. apply list_elem_of_singleton in H. discriminate.
Defined.

(** ** Requests that come back in a refresh *)

Lemma refresh_with_last_run w content data :
  refresh_with_last data (submitted w content) = Some (tt, applied w content data).
Proof.
  unfold refresh_with_last.
  assert (Hlast : last_submitted (submitted w content)
                  = Some (length (heap w), submitted w content)).
  { unfold last_submitted, submitted. cbn [rest]. rewrite last_snoc.
    reflexivity. }
  rewrite (bind_run _ _ _ _ _ Hlast). rewrite setup_run. reflexivity.
Qed.

Lemma stored_roles_applied w content data :
  stored_roles (applied w content data) = Some content.
Proof. unfold stored_roles, applied. cbn. apply lookup_fresh. Qed.

Lemma requested_applied w arg keys content data :
  requested w arg = Some keys →
  requested (applied w content data) arg = Some keys.
Proof.
  destruct arg as [c|a]; simpl; [trivial|].
  destruct (heap w !! a) as [items|] eqn:Ha; [|discriminate].
  intros Hk. rewrite (lookup_app_l_Some _ _ _ _ Ha). exact Hk.
Qed.

Lemma bare_ids_resolve (items : list Item) :
  forallb is_id items = true → items = map IStr (map resolve_id items).
Proof.
  induction items as [|x items IH]; simpl; [reflexivity|].
  destruct x as [r|s]; simpl; [discriminate|].
  intros H. rewrite <- IH by assumption. reflexivity.
Qed.

Lemma additions_requested w arg added keys :
  additions w arg = Some added →
  requested w arg = Some keys →
  forallb is_id added = true →
  added = map IStr keys.
Proof.
  destruct arg as [c|a]; simpl.
  - intros [= <-] [= <-] _. rewrite map_map. reflexivity.
  - intros ->. simpl. intros [= <-]. apply bare_ids_resolve.
Qed.

Lemma remove_all_added keys : ∀ stored,
  (∀ k, k ∈ keys → IStr k ∉ stored) →
  fold_left (λ a k, remove_first k a) keys (stored ++ map IStr keys) = stored.
Proof.
  induction keys as [|k keys IH]; intros stored Hnew; simpl.
  - apply app_nil_r.
  - rewrite remove_first_split by (apply Hnew; apply list_elem_of_here).
    apply IH. intros k' Hk'. apply Hnew. apply list_elem_of_further. assumption.
Qed.

Lemma roles_after_run (m : M unit) w content data :
  m w = Some (tt, submitted w content) →
  roles_after m data w
  = Some (GuildMember.roles_of (guild_roles (guild w)) (guild_id (guild w)) content,
          applied w content data).
Proof.
  intros Hm. unfold roles_after.
  rewrite (bind_run _ _ _ _ _ Hm).
  rewrite (bind_run _ _ _ _ _ (refresh_with_last_run w content data)).
  apply (roles_run (applied w content data) content).
  apply stored_roles_applied.
Qed.

(** X7: adding identifiers none of which is stored and, once the list sent
    has come back in a refresh, removing the same identifiers submits the list
    that was stored at the start; the additions may be a collection of roles or
    an array of identifiers, with repetitions or not. *)
Theorem add_then_remove_restores w arg data stored added keys :
  stored_roles w = Some stored →
  additions w arg = Some added →
  requested w arg = Some keys →
  forallb is_id added = true →
  (∀ k, k ∈ keys → IStr k ∉ stored) →
  ∃ w' l, add_refresh_remove arg data w = Some (tt, w')
          ∧ last (rest w') = Some (roles_update l)
          ∧ heap w' !! l = Some stored.
Proof.
  intros Hs Ha Hk Hids Hnew.
  pose proof (additions_requested _ _ _ _ Ha Hk Hids) as ->.
  unfold add_refresh_remove.
  rewrite (bind_run _ _ _ _ _ (addRoles_run _ _ _ _ Hs Ha)).
  rewrite (bind_run _ _ _ _ _ (refresh_with_last_run _ _ data)).
  rewrite (removeRoles_run _ arg _ keys (stored_roles_applied _ _ _)
             (requested_applied _ _ _ _ _ Hk)).
  rewrite remove_all_added by assumption.
  do 2 eexists. split; [reflexivity|]. split.
  - unfold submitted. cbn [rest]. apply last_snoc.
  - unfold submitted. cbn [heap]. apply lookup_fresh.
Qed.

Lemma add_then_remove_restores_witness :
  ∃ w' l,
    add_refresh_remove (RCollection [("R1", role1); ("G", everyone)])
      (sample_data 0%nat "2021-01-01T00:00:00Z")
      (sample_world sample_guild [[IStr "A"; IStr "B"]]) = Some (tt, w')
    ∧ last (rest w') = Some (roles_update l)
    ∧ heap w' !! l = Some [IStr "A"; IStr "B"].
Proof.
  apply (add_then_remove_restores
           (sample_world sample_guild [[IStr "A"; IStr "B"]])
           (RCollection [("R1", role1); ("G", everyone)])
           (sample_data 0%nat "2021-01-01T00:00:00Z")
           [IStr "A"; IStr "B"] [IStr "R1"; IStr "G"] ["R1"; "G"]
           eq_refl eq_refl eq_refl eq_refl).
  intros k Hk Hin.
  repeat (apply elem_of_cons in Hk as [->|Hk];
          [repeat (apply elem_of_cons in Hin as [Hin|Hin]; [discriminate|]);
           apply elem_of_nil in Hin; exact Hin|]).
  apply elem_of_nil in Hk. exact Hk.
Defined.

Lemma elem_of_map_IStr k keys : IStr k ∈ map IStr keys ↔ k ∈ keys.
Proof.
  induction keys as [|k' keys IH]; simpl.
  - rewrite !elem_of_nil. reflexivity.
  - rewrite !elem_of_cons, IH. split; intros [H|H]; auto; left; congruence.
Qed.

(** X8: after [removeRoles] on a stored list without duplicates and the
    refresh that answers it, with a registry keyed by role identifier, the
    view has lost the requested roles and nothing else; the default role
    stays, requested or not. *)
Theorem roles_after_removeRoles w arg data stored keys :
  stored_roles w = Some stored →
  NoDup stored →
  requested w arg = Some keys →
  keyed_by_id (guild_roles (guild w)) →
  ∃ before after w',
    GuildMember.roles w = Some (before, w)
    ∧ roles_after (GuildMember.removeRoles arg) data w = Some (after, w')
    ∧ ∀ k, Collection.get after k
           = if decide (k = guild_id (guild w)) then Collection.get before k
             else if decide (k ∈ keys) then None
             else Collection.get before k.
Proof.
  intros Hs Hnd Hk Hkeyed. do 3 eexists.
  split; [apply roles_run; exact Hs|].
  split; [apply roles_after_run; apply removeRoles_run; eassumption|].
  intros k. rewrite !get_roles_of by assumption.
  rewrite remove_all_filter by assumption.
  destruct (decide (k = guild_id (guild w))) as [->|Hne].
  - rewrite !decide_True by (left; reflexivity). reflexivity.
  - destruct (decide (k ∈ keys)) as [Hin|Hnin].
    + rewrite decide_False; [reflexivity|].
      intros [?|Hf]; [contradiction|].
      apply list_elem_of_filter in Hf as [Hf _].
      apply Hf. apply elem_of_map_IStr. exact Hin.
    + apply decide_ext. split; (intros [?|Hf]; [left; assumption|right]).
      * apply list_elem_of_filter in Hf as [_ Hf]. exact Hf.
      * apply list_elem_of_filter. split; [|exact Hf].
        rewrite elem_of_map_IStr. exact Hnin.
Qed.

Lemma roles_after_removeRoles_witness :
  ∃ before after w',
    GuildMember.roles (sample_world sample_guild [[IStr "R1"]; [IStr "R1"; IStr "G"]])
    = Some (before, sample_world sample_guild [[IStr "R1"]; [IStr "R1"; IStr "G"]])
    ∧ roles_after (GuildMember.removeRoles (RArray 1%nat))
        (sample_data 0%nat "2021-01-01T00:00:00Z")
        (sample_world sample_guild [[IStr "R1"]; [IStr "R1"; IStr "G"]])
      = Some (after, w')
    ∧ Collection.get after "R1" = None
    ∧ Collection.get after "G" = Collection.get before "G".
Proof.
  destruct (roles_after_removeRoles
              (sample_world sample_guild [[IStr "R1"]; [IStr "R1"; IStr "G"]])
              (RArray 1%nat) (sample_data 0%nat "2021-01-01T00:00:00Z")
              [IStr "R1"] ["R1"; "G"] eq_refl
              (NoDup_singleton (IStr "R1")) eq_refl sample_guild_keyed)
    as (before & after & w' & Hb & Ha & Hget).
  exists before, after, w'. split; [exact Hb|]. split; [exact Ha|]. split.
  - rewrite (Hget "R1"). reflexivity.
  - rewrite (Hget "G"). reflexivity.
Defined.

(** X9: after [addRoles] and the refresh that answers it, with a registry
    keyed by role identifier, the view holds every role it held before,
    holds for each added identifier what the registry holds for it, and
    holds nothing besides. *)
Theorem roles_after_addRoles w arg data stored added :
  stored_roles w = Some stored →
  additions w arg = Some added →
  keyed_by_id (guild_roles (guild w)) →
  ∃ before after w',
    GuildMember.roles w = Some (before, w)
    ∧ roles_after (GuildMember.addRoles arg) data w = Some (after, w')
    ∧ (∀ k r, Collection.get before k = Some r → Collection.get after k = Some r)
    ∧ (∀ k, IStr k ∈ added →
            Collection.get after k = Collection.get (guild_roles (guild w)) k)
    ∧ (∀ k r, Collection.get after k = Some r →
              Collection.get before k = Some r ∨ IStr k ∈ added).
Proof.
  intros Hs Ha Hkeyed. do 3 eexists.
  split; [apply roles_run; exact Hs|].
  split; [apply roles_after_run; apply addRoles_run; eassumption|].
  split; [|split].
  - intros k r. rewrite !get_roles_of by assumption.
    case_decide as Hb; [|discriminate]. intros Hr.
    rewrite decide_True; [exact Hr|].
    destruct Hb as [?|?]; [left; assumption|right].
    apply elem_of_app. left. assumption.
  - intros k Hin. rewrite get_roles_of by assumption.
    rewrite decide_True; [reflexivity|]. right. apply elem_of_app. right. exact Hin.
  - intros k r. rewrite !get_roles_of by assumption.
    case_decide as Hafter; [|discriminate]. intros Hr.
    destruct Hafter as [Hg|Hin].
    + left. rewrite decide_True by (left; exact Hg). exact Hr.
    + apply elem_of_app in Hin as [Hin|Hin]; [left|right; exact Hin].
      rewrite decide_True by (right; exact Hin). exact Hr.
Qed.

Lemma roles_after_addRoles_witness :
  ∃ before after w',
    GuildMember.roles (sample_world sample_guild [[]; [IStr "R1"; IStr "R9"]])
    = Some (before, sample_world sample_guild [[]; [IStr "R1"; IStr "R9"]])
    ∧ roles_after (GuildMember.addRoles (RArray 1%nat))
        (sample_data 0%nat "2021-01-01T00:00:00Z")
        (sample_world sample_guild [[]; [IStr "R1"; IStr "R9"]])
      = Some (after, w')
    ∧ Collection.get after "R1" = Some role1
    ∧ Collection.get after "R9" = None.
Proof.
  destruct (roles_after_addRoles
              (sample_world sample_guild [[]; [IStr "R1"; IStr "R9"]])
              (RArray 1%nat) (sample_data 0%nat "2021-01-01T00:00:00Z")
              [] [IStr "R1"; IStr "R9"] eq_refl eq_refl sample_guild_keyed)
    as (before & after & w' & Hb & Ha & _ & Hadded & _).
  exists before, after, w'. split; [exact Hb|]. split; [exact Ha|]. split.
  - rewrite (Hadded "R1") by apply list_elem_of_here. reflexivity.
  - rewrite (Hadded "R9")
      by (apply list_elem_of_further; apply list_elem_of_here).
    reflexivity.
Defined.

(** ** Construction and the derived views *)

(** X10: a member constructed without data owns a new, empty role list, so
    its view holds the default role if that is registered and nothing else;
    its join date is invalid, and its identifier, its mute and deaf state and
    its voice channel are undefined.  No array that existed is touched. *)
Theorem constructor_without_data w :
  ∃ w', GuildMember.constructor None w = Some (tt, w')
        ∧ heap w' = heap w ++ [[]]
        ∧ _roles (this w') = length (heap w)
        ∧ stored_roles w' = Some []
        ∧ GuildMember.roles w'
          = Some (match Collection.get (guild_roles (guild w)) (guild_id (guild w)) with
                  | Some r => [(Role.id r, r)]
                  | None => []
                  end, w')
        ∧ GuildMember.joinDate w' = Some (NaN, w')
        ∧ GuildMember.id w' = Some (None, w')
        ∧ GuildMember.mute w' = Some (None, w')
        ∧ GuildMember.deaf w' = Some (None, w')
        ∧ GuildMember.voiceChannel w' = Some (None, w').
Proof.
  exists (mkWorld (heap w ++ [[]]) (guild w) (blank (length (heap w))) (rest w)
            (engine w)).
  split; [reflexivity|]. split; [reflexivity|]. split; [reflexivity|].
  assert (Hs : stored_roles (mkWorld (heap w ++ [[]]) (guild w)
                               (blank (length (heap w))) (rest w) (engine w))
               = Some []).
  { unfold stored_roles. cbn. apply lookup_fresh. }
  split; [exact Hs|]. split; [|repeat split].
  rewrite (roles_run _ _ Hs). cbn [guild GuildMember.roles_of fold_left].
  destruct (Collection.get _ _); reflexivity.
Qed.

(** X11: a member constructed with data has the fields of the data, [speaking]
    undefined, and for its role list the array of the data, not one of its
    own.  Its identifier is the user's, it is muted (deafened) when the data
    say so for the server or for the user, its join date is the time value
    that [new Date(joined_at).getTime()] gives, and its voice channel is what
    the guild's channels hold under [channel_id], undefined when there is no
    such identifier or no such channel. *)
Theorem constructor_with_data w data :
  is_Some (heap w !! Data.roles data) →
  ∃ w', GuildMember.constructor (Some data) w = Some (tt, w')
        ∧ this w' = refreshed (engine w) data None
        ∧ stored_roles w' = heap w !! Data.roles data
        ∧ GuildMember.id w' = Some (Some (User.id (Data.user data)), w')
        ∧ GuildMember.mute w'
          = Some (Some (Data.self_mute data || Data.mute data), w')
        ∧ GuildMember.deaf w'
          = Some (Some (Data.self_deaf data || Data.deaf data), w')
        ∧ GuildMember.joinDate w'
          = Some (DateParse.getTime (engine w) (Data.joined_at data), w')
        ∧ GuildMember.voiceChannel w'
          = Some (match Data.channel_id data with
                  | Some k => Collection.get (guild_channels (guild w)) k
                  | None => None
                  end, w').
Proof.
  intros [a Ha].
  exists (mkWorld (heap w ++ [[]]) (guild w) (refreshed (engine w) data None)
            (rest w) (engine w)).
  split.
  { unfold GuildMember.constructor.
    rewrite (bind_run _ _ _ (length (heap w)) (put_heap (heap w ++ [[]]) w) eq_refl).
    erewrite bind_run; [|reflexivity]. apply setup_run. }
  split; [reflexivity|]. split.
  { unfold stored_roles. cbn [heap this _roles refreshed]. rewrite Ha.
    apply lookup_app_l_Some. exact Ha. }
  unfold GuildMember.id, GuildMember.mute, GuildMember.deaf, GuildMember.joinDate,
    GuildMember.voiceChannel, bind, get_this, get_guild, ret.
  cbn [this guild engine refreshed user selfMute serverMute selfDeaf serverDeaf
       _joinDate voiceChannelID].
  split; [reflexivity|]. split; [destruct (Data.self_mute data); reflexivity|].
  split; [destruct (Data.self_deaf data); reflexivity|].
  split; [reflexivity|]. destruct (Data.channel_id data); reflexivity.
Qed.

Lemma constructor_with_data_witness :
  ∃ w', GuildMember.constructor (Some (sample_data 0%nat "2021-01-01"))
          (sample_world sample_guild [[IStr "R1"]]) = Some (tt, w')
        ∧ speaking (this w') = None
        ∧ stored_roles w' = Some [IStr "R1"]
        ∧ GuildMember.id w' = Some (Some "U1", w')
        ∧ GuildMember.joinDate w' = Some (Ms 1609459200000, w').
Proof.
  destruct (constructor_with_data (sample_world sample_guild [[IStr "R1"]])
              (sample_data 0%nat "2021-01-01") (ex_intro _ _ eq_refl))
    as (w' & Hrun & Hthis & Hs & Hid & _ & _ & Hjoin & _).
  exists w'. split; [exact Hrun|]. split; [rewrite Hthis; reflexivity|].
  split; [exact Hs|]. split; [exact Hid|]. exact Hjoin.
Defined.

(** X12: [setup] keeps the array of the data, not a copy of it: when the
    owner of the data later changes that array, the view follows without a
    refresh.  With a registry keyed by role identifier, the view then holds
    the registered roles of the new content, besides the default role. *)
Theorem setup_shares_roles_array w data a :
  is_Some (heap w !! Data.roles data) →
  keyed_by_id (guild_roles (guild w)) →
  ∃ view w',
    roles_after_foreign_write data a w = Some (view, w')
    ∧ this w' = refreshed (engine w) data (speaking (this w))
    ∧ stored_roles w' = Some a
    ∧ ∀ k, Collection.get view k
           = if decide (k = guild_id (guild w) ∨ IStr k ∈ a)
             then Collection.get (guild_roles (guild w)) k else None.
Proof.
  intros [old Hold] Hkeyed. unfold roles_after_foreign_write.
  rewrite (bind_run _ _ _ _ _ (setup_run w data)).
  erewrite bind_run; [|apply (write_run _ _ a old); exact Hold].
  assert (Hlt : (Data.roles data < length (heap w))%nat)
    by (eapply lookup_lt_Some; exact Hold).
  erewrite roles_run;
    [|unfold stored_roles; cbn [heap this _roles put_heap];
      apply list_lookup_insert_eq; exact Hlt].
  do 2 eexists. split; [reflexivity|]. split; [reflexivity|]. split.
  - unfold stored_roles. cbn [heap this _roles put_heap].
    apply list_lookup_insert_eq. exact Hlt.
  - intros k. cbn [guild put_heap]. apply get_roles_of. exact Hkeyed.
Qed.

Lemma setup_shares_roles_array_witness :
  ∃ view w',
    roles_after_foreign_write (sample_data 0%nat "2021-01-01T00:00:00Z")
      [IStr "R1"] (sample_world sample_guild [[]]) = Some (view, w')
    ∧ stored_roles w' = Some [IStr "R1"]
    ∧ Collection.get view "R1" = Some role1.
Proof.
  destruct (setup_shares_roles_array (sample_world sample_guild [[]])
              (sample_data 0%nat "2021-01-01T00:00:00Z") [IStr "R1"]
              (ex_intro _ _ eq_refl) sample_guild_keyed)
    as (view & w' & Hrun & _ & Hs & Hget).
  exists view, w'. split; [exact Hrun|]. split; [exact Hs|].
  rewrite (Hget "R1"). reflexivity.
Defined.

(** X13: [mute] yields a value that counts as true exactly when the member
    is self-muted or server-muted, and [deaf] likewise for the two deaf flags,
    whether the flags are set or still undefined; neither changes anything. *)
Theorem mute_deaf_truthy w :
  ∃ m d,
    GuildMember.mute w = Some (m, w)
    ∧ GuildMember.deaf w = Some (d, w)
    ∧ (truthy m ↔ truthy (selfMute (this w)) ∨ truthy (serverMute (this w)))
    ∧ (truthy d ↔ truthy (selfDeaf (this w)) ∨ truthy (serverDeaf (this w))).
Proof.
  do 2 eexists. split; [reflexivity|]. split; [reflexivity|].
  unfold truthy, js_or. split.
  - destruct (selfMute (this w)) as [[|]|]; split; auto;
      intros [H|H]; auto; discriminate.
  - destruct (selfDeaf (this w)) as [[|]|]; split; auto;
      intros [H|H]; auto; discriminate.
Qed.
